(** * fungen: a shallow embedding of the generator and of the code it emits

    The development follows [fungen.go].  Go strings are byte strings and
    are modelled by [string]; Go maps are modelled by stdpp's [gmap]; the
    order in which a [range] loop visits a map is not fixed by the language,
    so every such loop takes the visiting order as an explicit argument (a
    [Schedule]).  The collaborators the program calls but does not define
    ([go/format], [ioutil.WriteFile]) are section variables.

    The second half ([Module Generated]) embeds the bodies of the methods
    that the templates emit, over Go slices with length and capacity. *)

From Stdlib Require Import ZArith Ascii String List Bool Lia.
From stdpp Require Import base option list strings gmap fin_maps.

Local Open Scope string_scope.

(** ** Results of fallible steps

    [log.Fatal] and [log.Fatalf] print a diagnostic and end the process;
    a step that may do so returns [Fatal msg] in place of its value. *)

Inductive fallible (A : Type) : Type :=
  | Ok (a : A)
  | Fatal (msg : string).
Arguments Ok {A} a.
Arguments Fatal {A} msg.

#[global] Instance fallible_ret : MRet fallible := @Ok.

#[global] Instance fallible_bind : MBind fallible := fun A B k r =>
  match r with
  | Ok a => k a
  | Fatal msg => Fatal msg
  end.

(** ** The fragment of the Go library the program uses *)

Module strings.

(** [strings.Split(s, sep)] for a one-byte separator: the pieces between
    the separators, so [n] separators give [n + 1] pieces and the empty
    string gives one empty piece. *)
Fixpoint Split (s : string) (sep : ascii) : list string :=
  match s with
  | EmptyString => [EmptyString]
  | String c rest =>
      if Ascii.eqb c sep then EmptyString :: Split rest sep
      else match Split rest sep with
           | piece :: pieces => String c piece :: pieces
           | [] => [String c EmptyString]
           end
  end.

Definition in_range (lo hi : nat) (r : ascii) : bool :=
  (lo <=? nat_of_ascii r)%nat && (nat_of_ascii r <=? hi)%nat.

Definition is_digit (r : ascii) : bool := in_range 48 57 r.
Definition is_lower (r : ascii) : bool := in_range 97 122 r.
Definition is_upper (r : ascii) : bool := in_range 65 90 r.

(** [isSeparator]: ASCII letters, digits and the underscore do not
    separate words, every other ASCII byte does.  Bytes above 0x7F belong
    to multi-byte runes, which Go classifies with the Unicode tables; the
    model keeps them as word characters, so it is exact on ASCII text. *)
Definition isSeparator (r : ascii) : bool :=
  if (nat_of_ascii r <=? 127)%nat
  then negb (is_digit r || is_lower r || is_upper r || Ascii.eqb r "_")
  else false.

(** [unicode.ToTitle] on one byte. *)
Definition ToTitle (r : ascii) : ascii :=
  if is_lower r then ascii_of_nat (nat_of_ascii r - 32) else r.

(** The closure of [strings.Title]: [prev] is the rune seen before. *)
Fixpoint Title_from (prev : ascii) (s : string) : string :=
  match s with
  | EmptyString => EmptyString
  | String r rest =>
      String (if isSeparator prev then ToTitle r else r) (Title_from r rest)
  end.

(** [strings.Title(s)]: the first letter of every word in title case. *)
Definition Title (s : string) : string := Title_from " " s.

End strings.

Module fmt.

(** Operand [argNum] of a call, or the marker [fmt] prints when the
    operand does not exist. *)
Definition operand (a : list string) (argNum : nat) : string :=
  default "%!s(BADINDEX)" (a !! argNum).

Definition index_of (d : ascii) : option nat :=
  if strings.in_range 49 57 d then Some (nat_of_ascii d - 49) else None.

(** The verb at the head of [format], if there is one: the operand it
    prints and the number of bytes it takes after the per cent sign.  The
    formats of the program contain [%s], which prints the next operand,
    and [%[n]s] with one digit, which prints operand [n]. *)
Definition verb (format : string) (argNum : nat) : option (nat * nat) :=
  match format with
  | String c (String c1 rest1) =>
      if Ascii.eqb c "%" then
        if Ascii.eqb c1 "s" then Some (argNum, 1)
        else if Ascii.eqb c1 "[" then
          match rest1 with
          | String d (String c3 (String c4 _)) =>
              match index_of d with
              | Some k =>
                  if Ascii.eqb c3 "]" && Ascii.eqb c4 "s" then Some (k, 4) else None
              | None => None
              end
          | _ => None
          end
        else None
      else None
  | _ => None
  end.

(** [doPrintf]: a verb prints its operand and makes the operand after it
    the next one; [skip] bytes of the verb are still to pass over; every
    other byte is copied. *)
Fixpoint doPrintf (format : string) (a : list string) (argNum skip : nat) : string :=
  match format with
  | EmptyString => EmptyString
  | String c rest =>
      match skip with
      | S skip => doPrintf rest a argNum skip
      | O =>
          match verb format argNum with
          | Some (k, n) => operand a k ++ doPrintf rest a (S k) n
          | None => String c (doPrintf rest a argNum 0)
          end
      end
  end.

Definition Sprintf (format : string) (a : list string) : string :=
  doPrintf format a 0 0.

(** [doPrintf] with the text that follows the formatted one as an
    argument: [doPrintf_then format a argNum skip tail] is
    [doPrintf format a argNum skip ++ tail]. *)
Fixpoint doPrintf_then (format : string) (a : list string) (argNum skip : nat)
    (tail : string) : string :=
  match format with
  | EmptyString => tail
  | String c rest =>
      match skip with
      | S skip => doPrintf_then rest a argNum skip tail
      | O =>
          match verb format argNum with
          | Some (k, n) => operand a k ++ doPrintf_then rest a (S k) n tail
          | None => String c (doPrintf_then rest a argNum 0 tail)
          end
      end
  end.

End fmt.

(** The double quote, for the one literal of the program that holds it. *)
Definition dquote : string := String (ascii_of_nat 34) EmptyString.

(** ** The registry *)

(** [Generator]: one generator (function and information about generate). *)
Record Generator : Type := {
  name : string;
  method : string → string → string → string → string;
  needSync : bool;
  needMapToMap : bool
}.

(** [getMapFunction] *)
Definition getMapFunction (listName typeName targetType targetTypeName : string) : string :=
  let targetListName :=
    if String.eqb targetTypeName "" then listName else targetType ++ "List" in
  fmt.Sprintf "
        // Map%[4]s is a method on %[1]s that takes a function of type %[2]s -> %[3]s and applies it to every member of %[1]s
        func (l %[1]s) Map%[4]s(f func(%[2]s) %[3]s) %[5]s {
            l2 := make(%[5]s, len(l))
            for i, t := range l {
                l2[i] = f(t)
            }
            return l2
        }
        "
    [listName; typeName; targetType; strings.Title targetTypeName; targetListName].

(** [getPMapFunction] *)
Definition getPMapFunction (listName typeName targetType targetTypeName : string) : string :=
  let targetListName :=
    if String.eqb targetTypeName "" then listName else targetType ++ "List" in
  fmt.Sprintf "
        // PMap%[4]s is similar to Map%[4]s except that it executes the function on each member in parallel.
        func (l %[1]s) PMap%[4]s(f func(%[2]s) %[3]s) %[5]s {
            wg := sync.WaitGroup{}
            l2 := make(%[5]s, len(l))
            for i, t := range l {
                wg.Add(1)
                go func(i int, t %[2]s){
                    l2[i] = f(t)
                    wg.Done()
                }(i, t)
            }
            wg.Wait()
            return l2
        }
        "
    [listName; typeName; targetType; strings.Title targetTypeName; targetListName].

(** [getFilterFunction] *)
Definition getFilterFunction (listName typeName _ _ : string) : string :=
  fmt.Sprintf "
        // Filter is a method on %[1]s that takes a function of type %[2]s -> bool returns a list of type %[1]s which contains all members from the original list for which the function returned true
        func (l %[1]s) Filter(f func(%[2]s) bool) %[1]s {
            l2 := []%[2]s{}
            for _, t := range l {
                if f(t) {
                    l2 = append(l2, t)
                }
            }
            return l2
        }
        "
    [listName; typeName].

(** [getPFilterFunction] *)
Definition getPFilterFunction (listName typeName _ _ : string) : string :=
  fmt.Sprintf "
        // PFilter is similar to the Filter method except that the filter is applied to all the elements in parallel. The order of resulting elements cannot be guaranteed. 
        func (l %[1]s) PFilter(f func(%[2]s) bool) %[1]s {
            wg := sync.WaitGroup{}
            mutex := sync.Mutex{}
            l2 := []%[2]s{}
            for _, t := range l {
                wg.Add(1)
                go func(t %[2]s){
                    if f(t) {
                        mutex.Lock()
                        l2 = append(l2, t)
                        mutex.Unlock()
                    }            
                    wg.Done()
                }(t)
            }
            wg.Wait()
            return l2
        }
        "
    [listName; typeName].

(** [getEachFunction] *)
Definition getEachFunction (listName typeName _ _ : string) : string :=
  fmt.Sprintf "
        // Each is a method on %[1]s that takes a function of type %[2]s -> void and applies the function to each member of the list and then returns the original list.
        func (l %[1]s) Each(f func(%[2]s)) %[1]s {
            for _, t := range l {
                f(t) 
            }
            return l
        }
        "
    [listName; typeName].

(** [getEachIFunction] *)
Definition getEachIFunction (listName typeName _ _ : string) : string :=
  fmt.Sprintf "
        // EachI is a method on %[1]s that takes a function of type (int, %[2]s) -> void and applies the function to each member of the list and then returns the original list. The int parameter to the function is the index of the element.
        func (l %[1]s) EachI(f func(int, %[2]s)) %[1]s {
            for i, t := range l {
                f(i, t) 
            }
            return l
        }
        "
    [listName; typeName].

(** [getDropWhileFunction] *)
Definition getDropWhileFunction (listName typeName _ _ : string) : string :=
  fmt.Sprintf "
        // DropWhile is a method on %[1]s that takes a function of type %[2]s -> bool and returns a list of type %[1]s which excludes the first members from the original list for which the function returned true
        func (l %[1]s) DropWhile(f func(%[2]s) bool) %[1]s {
            for i, t := range l {
                if !f(t) {
                    return l[i:]
                }
            }
            var l2 %[1]s
            return l2
        }
        "
    [listName; typeName].

(** [getTakeWhileFunction] *)
Definition getTakeWhileFunction (listName typeName _ _ : string) : string :=
  fmt.Sprintf "
        // TakeWhile is a method on %[1]s that takes a function of type %[2]s -> bool and returns a list of type %[1]s which includes only the first members from the original list for which the function returned true
        func (l %[1]s) TakeWhile(f func(%[2]s) bool) %[1]s {
            for i, t := range l {
                if !f(t) {
                    return l[:i]
                }
            }
            return l
        }
        "
    [listName; typeName].

(** [getTakeFunction] *)
Definition getTakeFunction (listName typeName _ _ : string) : string :=
  fmt.Sprintf "
        // Take is a method on %[1]s that takes an integer n and returns the first n elements of the original list. If the list contains fewer than n elements then the entire list is returned.
        func (l %[1]s) Take(n int) %[1]s {
            if len(l) >= n {
                return l[:n]
            }
            return l
        }
        "
    [listName; typeName].

(** [getDropFunction] *)
Definition getDropFunction (listName typeName _ _ : string) : string :=
  fmt.Sprintf "
        // Drop is a method on %[1]s that takes an integer n and returns all but the first n elements of the original list. If the list contains fewer than n elements then an empty list is returned.
        func (l %[1]s) Drop(n int) %[1]s {
            if len(l) >= n {
                return l[n:]
            }
            var l2 %[1]s
            return l2
        }
        "
    [listName; typeName].

(** [getReduceFunction] *)
Definition getReduceFunction (listName typename _ _ : string) : string :=
  fmt.Sprintf "
        // Reduce is a method on %[1]s that takes a function of type (%[2]s, %[2]s) -> %[2]s and returns a %[2]s which is the result of applying the function to all members of the original list starting from the first member
        func (l %[1]s) Reduce(t1 %[2]s, f func(%[2]s, %[2]s) %[2]s) %[2]s {
            for _, t := range l {
                t1 = f(t1, t)
            }
            return t1
        }
        "
    [listName; typename].

(** [getReduceRightFunction] *)
Definition getReduceRightFunction (listName typename _ _ : string) : string :=
  fmt.Sprintf "
        // ReduceRight is a method on %[1]s that takes a function of type (%[2]s, %[2]s) -> %[2]s and returns a %[2]s which is the result of applying the function to all members of the original list starting from the last member
        func (l %[1]s) ReduceRight(t1 %[2]s, f func(%[2]s, %[2]s) %[2]s) %[2]s {
            for i := len(l) - 1; i >= 0; i-- {
                t := l[i]
                t1 = f(t, t1)
            }
            return t1
        }
        "
    [listName; typename].

(** [getAllFunction] *)
Definition getAllFunction (listName typename _ _ : string) : string :=
  fmt.Sprintf "
        // All is a method on %[1]s that returns true if all the members of the list satisfy a function or if the list is empty. 
        func (l %[1]s) All(f func(%[2]s) bool) bool {
            for _, t := range l {
                if !f(t) {
                    return false
                }
            }
            return true
        }
        "
    [listName; typename].

(** [getAnyFunction] *)
Definition getAnyFunction (listName typename _ _ : string) : string :=
  fmt.Sprintf "
        // Any is a method on %[1]s that returns true if at least one member of the list satisfies a function. It returns false if the list is empty. 
        func (l %[1]s) Any(f func(%[2]s) bool) bool {
            for _, t := range l {
                if f(t) {
                    return true
                }
            }
            return false
        }
        "
    [listName; typename].

Definition generators : list Generator := [
  {| name := "Map"; method := getMapFunction; needSync := false; needMapToMap := true |};
  {| name := "PMap"; method := getPMapFunction; needSync := true; needMapToMap := true |};
  {| name := "Filter"; method := getFilterFunction; needSync := false; needMapToMap := false |};
  {| name := "PFilter"; method := getPFilterFunction; needSync := true; needMapToMap := false |};
  {| name := "Reduce"; method := getReduceFunction; needSync := false; needMapToMap := false |};
  {| name := "ReduceRight"; method := getReduceRightFunction; needSync := false; needMapToMap := false |};
  {| name := "Take"; method := getTakeFunction; needSync := false; needMapToMap := false |};
  {| name := "TakeWhile"; method := getTakeWhileFunction; needSync := false; needMapToMap := false |};
  {| name := "Drop"; method := getDropFunction; needSync := false; needMapToMap := false |};
  {| name := "DropWhile"; method := getDropWhileFunction; needSync := false; needMapToMap := false |};
  {| name := "Each"; method := getEachFunction; needSync := false; needMapToMap := false |};
  {| name := "EachI"; method := getEachIFunction; needSync := false; needMapToMap := false |};
  {| name := "All"; method := getAllFunction; needSync := false; needMapToMap := false |};
  {| name := "Any"; method := getAnyFunction; needSync := false; needMapToMap := false |}
].


(** [GeneratorList] is [[]Generator]; its methods [Filter] and [Each] are
    the instances of the [Filter] and [Each] templates above that the
    directive [go:generate fungen -types "Generator" -methods Filter,Each]
    emits.  The callback of [Each] updates variables it captures: here it
    takes and returns their value. *)
Module GeneratorList.

Definition Filter (l : list Generator) (f : Generator → bool) : list Generator :=
  foldl (fun l2 t => if f t then (l2 ++ [t])%list else l2) [] l.

Definition Each {S : Type} (l : list Generator) (f : Generator → S → S) (s : S) : S :=
  foldl (fun s t => f t s) s l.

End GeneratorList.

(** ** Type set and selection *)

(** One turn of the loop of [getTypeMap]: the entry [t] of the type
    specification binds its first part to its second, or to itself. *)
Definition bind_type (m : gmap string string) (t : string) : gmap string string :=
  match strings.Split t ":" with
  | [t0] => <[t0 := t0]> m
  | t0 :: t1 :: _ => <[t0 := t1]> m
  | [] => m
  end.

(** [getTypeMap]: canonical type name to alias. *)
Definition getTypeMap (targets : string) : gmap string string :=
  if String.eqb targets "" then ∅
  else foldl bind_type ∅ (strings.Split targets ",").

(** The loop of [getMethodsMap] over the requested names. *)
Fixpoint selectMethods (validMethods result : gmap string bool)
    (names : list string) : fallible (gmap string bool) :=
  match names with
  | [] => Ok result
  | method :: rest =>
      match validMethods !! method with
      | Some _ => selectMethods validMethods (<[method := true]> result) rest
      | None =>
          Fatal (fmt.Sprintf "Error: -method parameter '%s' is not valid" [method])
      end
  end.

(** [getMethodsMap]: get selected methods from -methods option, or return
    all methods. *)
Definition getMethodsMap (methodsStr : string) : fallible (gmap string bool) :=
  if String.eqb methodsStr "" then
    Ok (GeneratorList.Each generators (fun gen result => <[name gen := true]> result) ∅)
  else
    let validMethods :=
      GeneratorList.Each generators
        (fun gen validMethods => <[name gen := true]> validMethods) ∅ in
    selectMethods validMethods ∅ (strings.Split methodsStr ",").

(** ** Expansion and rendering *)

(** A [range] loop over a map visits every entry once, in an order the
    language leaves open: the loops below take the entries in the order
    visited. *)
Abbreviation entries := (list (string * string)).

(** The suffix argument of a cross-type call ([generate], lines 233-236). *)
Definition targetTypeNameOf (typeName k v : string) : string :=
  if String.eqb k typeName then "" else v.

(** The declaration of the list type, with which the code of [generate]
    starts. *)
Definition typeDecl (typeName listname : string) : string :=
  fmt.Sprintf "
            
            // %[2]s is the type for a list that holds members of type %[1]s
            type %[2]s []%[1]s
            " [typeName; listname].

(** [generate]; [range_m g] is the order in which the loop run for
    generator [g] visits [m]. *)
Definition generate (typeName listname : string) (range_m : string → entries)
    (methodsMap : gmap string bool) : string :=
  let code := typeDecl typeName listname in
  GeneratorList.Each
    (GeneratorList.Filter generators
       (fun gen => match methodsMap !! name gen with Some _ => true | None => false end))
    (fun gen code =>
       if needMapToMap gen then
         foldl (fun code '(k, v) =>
                  code ++ method gen listname typeName k (targetTypeNameOf typeName k v))
               code (range_m (name gen))
       else code ++ method gen listname typeName "" "")
    code.

(** The orders one run picks: [outer] for the loop of [main] over the
    type map, [inner t g] for the loop of [generate] run for type [t] and
    generator [g]. *)
Record Schedule : Type := {
  outer : entries;
  inner : string → string → entries
}.

Definition valid_schedule (typeMap : gmap string string) (s : Schedule) : Prop :=
  outer s ≡ₚ map_to_list typeMap ∧
  ∀ t g, inner s t g ≡ₚ map_to_list typeMap.

(** The schedule that visits the entries in the order of [map_to_list]. *)
Definition listed_schedule (typeMap : gmap string string) : Schedule :=
  {| outer := map_to_list typeMap; inner := fun _ _ => map_to_list typeMap |}.

(** What a run leaves behind. *)
Inductive outcome : Type :=
  | UsageExit2
  | FatalExit (msg : string)
  | Printed (filename src : string)
  | Written (filename src : string).

(** [import "sync"] *)
Definition import_sync : string := "import " ++ dquote ++ "sync" ++ dquote.

Definition needImportSync (methodsMap : gmap string bool) : bool :=
  (0 <? length (GeneratorList.Filter generators (fun gen =>
      let selectedMethod := default false (methodsMap !! name gen) in
      selectedMethod && needSync gen)))%nat.

Definition importSyncOf (methodsMap : gmap string bool) : string :=
  if needImportSync methodsMap then import_sync else "".

Definition header (packageName importSync : string) : string :=
  fmt.Sprintf "// Package %[1]s - generated by fungen; DO NOT EDIT
            package %[1]s
            
            %[2]s
			
            " [packageName; importSync].

Section Main.

(** [format.Source]: the formatted text, or the error it reports. *)
Variable format_Source : string → fallible string.

(** [ioutil.WriteFile]: [None] on success, or the error. *)
Variable WriteFile : string → string → option string.

(** [f] *)
Definition f (s : string) : fallible string := format_Source s.

(** The loop of [main] over the type map, visited in the order [order]. *)
Fixpoint sections (order : entries) (inner : string → string → entries)
    (methodsMap : gmap string bool) (src : string) : fallible string :=
  match order with
  | [] => Ok src
  | (k1, v1) :: rest =>
      src ← f (src ++ generate k1 (v1 ++ "List") (inner k1) methodsMap);
      sections rest inner methodsMap src
  end.

(** [main], on the values of the five flags. *)
Definition main (packageName types methods outputName : string) (testrun : bool)
    (s : Schedule) : outcome :=
  if (String.length types =? 0)%nat then UsageExit2
  else
    match getMethodsMap methods with
    | Fatal msg => FatalExit msg
    | Ok methodsMap =>
        let src := header packageName (importSyncOf methodsMap) in
        let typeMap := getTypeMap types in
        match sections (outer s) (inner s) methodsMap src with
        | Fatal msg => FatalExit msg
        | Ok src =>
            if testrun then Printed outputName src
            else match WriteFile outputName src with
                 | Some err => FatalExit (fmt.Sprintf "writing output: %s" [err])
                 | None => Written outputName src
                 end
        end
    end.

End Main.

(** ** The expansion as a list of calls

    [generate] appends to its code the text of one call of a generator's
    [method] after the other; [expand] lists these calls in the order in
    which they are made. *)

Record call : Type := {
  c_gen : Generator;
  c_listName : string;
  c_typeName : string;
  c_targetType : string;
  c_targetTypeName : string
}.

Definition render (c : call) : string :=
  method (c_gen c) (c_listName c) (c_typeName c) (c_targetType c) (c_targetTypeName c).

(** The generators [generate] keeps: those whose name is a key of
    [methodsMap]. *)
Definition selected (methodsMap : gmap string bool) : list Generator :=
  GeneratorList.Filter generators
    (fun gen => match methodsMap !! name gen with Some _ => true | None => false end).

Definition callsOf (typeName listname : string) (range_m : string → entries)
    (gen : Generator) : list call :=
  if needMapToMap gen then
    (fun '(k, v) => {| c_gen := gen; c_listName := listname; c_typeName := typeName;
                       c_targetType := k;
                       c_targetTypeName := targetTypeNameOf typeName k v |})
      <$> range_m (name gen)
  else [{| c_gen := gen; c_listName := listname; c_typeName := typeName;
           c_targetType := ""; c_targetTypeName := "" |}].

Definition expand (typeName listname : string) (range_m : string → entries)
    (methodsMap : gmap string bool) : list call :=
  selected methodsMap ≫= callsOf typeName listname range_m.

(** The calls of a whole run, and the pieces of text it appends: for every
    type visited, the declaration of its list type and then its calls. *)
Definition mainCalls (methodsMap : gmap string bool) (s : Schedule) : list call :=
  outer s ≫= fun '(k1, v1) => expand k1 (v1 ++ "List") (inner s k1) methodsMap.

Definition mainFragments (methodsMap : gmap string bool) (s : Schedule) : list string :=
  outer s ≫= fun '(k1, v1) =>
    typeDecl k1 (v1 ++ "List")
      :: (render <$> expand k1 (v1 ++ "List") (inner s k1) methodsMap).

(** The pieces of text one after the other. *)
Definition joined (pieces : list string) : string := foldr String.append "" pieces.

(** The text [main] appends for the entry [kv] of the type map. *)
Definition section_text (methodsMap : gmap string bool)
    (inner : string → string → entries) (kv : string * string) : string :=
  generate kv.1 (kv.2 ++ "List") (inner kv.1) methodsMap.

Definition isCrossType (c : call) : bool := needMapToMap (c_gen c).
Definition isSingleType (c : call) : bool := negb (needMapToMap (c_gen c)).

(** The canonical type names a type specification lists, with repetitions. *)
Definition canonicalNames (targets : string) : list string :=
  (fun t => hd "" (strings.Split t ":")) <$> strings.Split targets ",".

(** The names in the registry. *)
Definition registryNames : list string := name <$> generators.

(** The diagnostic of [getMethodsMap] for the name [method]. *)
Definition notValid (method : string) : string :=
  "Error: -method parameter '" ++ method ++ "' is not valid".

(** The first line of a cross-type method. *)
Definition declaration (listName methodName typeName targetType resultList : string)
    : string :=
  "func (l " ++ listName ++ ") " ++ methodName ++ "(f func(" ++ typeName ++ ") "
    ++ targetType ++ ") " ++ resultList ++ " {".

(** The result list type [getMapFunction] and [getPMapFunction] compute. *)
Definition targetListNameOf (listName targetType targetTypeName : string) : string :=
  if String.eqb targetTypeName "" then listName else targetType ++ "List".

(** The text of the header before and after the place of the import. *)
Definition headerBefore (packageName : string) : string :=
  "// Package " ++ packageName ++ " - generated by fungen; DO NOT EDIT
            package " ++ packageName ++ "
            
            ".

Definition headerAfter : string := "
			
            ".

(** ** Text search *)

(** [s] starts with [pat]. *)
Fixpoint starts_with (pat s : string) : bool :=
  match pat with
  | EmptyString => true
  | String a pat =>
      match s with
      | EmptyString => false
      | String b s => Ascii.eqb a b && starts_with pat s
      end
  end.

(** The number of positions of [s] at which [pat] starts. *)
Fixpoint occurrences (pat s : string) : nat :=
  (if starts_with pat s then 1 else 0) +
  match s with
  | EmptyString => 0
  | String _ rest => occurrences pat rest
  end.

Definition contains (pat s : string) : bool := (0 <? occurrences pat s)%nat.

Definition is_dquote (c : ascii) : bool := Ascii.eqb c (ascii_of_nat 34).

Fixpoint no_dquote (s : string) : bool :=
  match s with
  | EmptyString => true
  | String c rest => negb (is_dquote c) && no_dquote rest
  end.

(** Position of the first double quote. *)
Fixpoint first_dquote (s : string) : option nat :=
  match s with
  | EmptyString => None
  | String c rest => if is_dquote c then Some O else S <$> first_dquote rest
  end.

(** ** The claims that are settled by a counterexample *)

(** C1 as stated: two runs on the same inputs append the same pieces in the
    same order and leave the same text, whichever orders the two runs visit
    the type map in. *)
Definition output_determined_by_inputs : Prop :=
  ∀ (format_Source : string → fallible string)
    (WriteFile : string → string → option string)
    (packageName types methods outputName : string) (testrun : bool)
    (s1 s2 : Schedule),
    valid_schedule (getTypeMap types) s1 →
    valid_schedule (getTypeMap types) s2 →
    (∀ methodsMap, getMethodsMap methods = Ok methodsMap →
       mainFragments methodsMap s1 = mainFragments methodsMap s2) ∧
    main format_Source WriteFile packageName types methods outputName testrun s1 =
    main format_Source WriteFile packageName types methods outputName testrun s2.

(** A formatter that returns its input. *)
Definition unformatted (s : string) : fallible string := Ok s.

(** A sink that never fails. *)
Definition written (filename src : string) : option string := None.

(** The first entry of the registry. *)
Definition Map_generator : Generator :=
  {| name := "Map"; method := getMapFunction; needSync := false; needMapToMap := true |}.

(** An order on the type map of ["int,string:S"], whatever the generator. *)
Definition int_and_S (g : string) : entries := [("int", "int"); ("string", "S")].

(** Two orders on the type map of ["int,string"]. *)
Definition int_first : Schedule :=
  {| outer := [("int", "int"); ("string", "string")];
     inner := fun _ _ => [("int", "int"); ("string", "string")] |}.

Definition string_first : Schedule :=
  {| outer := [("string", "string"); ("int", "int")];
     inner := fun _ _ => [("string", "string"); ("int", "int")] |}.

(** ** The rest of the program *)

(** The first part of an entry of the type specification, and the alias
    the loop of [getTypeMap] binds it to. *)
Definition canonicalOf (t : string) : string := hd "" (strings.Split t ":").

Definition aliasOf (t : string) : string :=
  match strings.Split t ":" with
  | [t0] => t0
  | _ :: t1 :: _ => t1
  | [] => ""
  end.

(** The entries of a type specification that name the type [k]. *)
Definition entriesFor (k : string) (ts : list string) : list string :=
  List.filter (fun t => String.eqb (canonicalOf t) k) ts.

(** [getFileNameForTypes]; [range_m] is the order in which the loop visits
    [m]. *)
Definition getFileNameForTypes (t : string) (m : gmap string string)
    (range_m : entries) : string :=
  if (size m =? 0)%nat then t
  else
    foldl (fun s '(k, v) => if String.eqb t k then s else s ++ "_" ++ v) t range_m.

(** The first line of a method named [methodName] on the list type
    [listName], up to its parameter list. *)
Definition receiver (listName methodName : string) : string :=
  "func (l " ++ listName ++ ") " ++ methodName ++ "(".

(** The text handed to the formatter for the first entry of [order]. *)
Definition firstText (packageName : string) (methodsMap : gmap string bool)
    (s : Schedule) : option string :=
  match outer s with
  | [] => None
  | (k1, v1) :: _ =>
      Some (header packageName (importSyncOf methodsMap)
              ++ generate k1 (v1 ++ "List") (inner s k1) methodsMap)
  end.

(** ** The emitted methods

    The bodies of the methods that the templates emit, for an element type
    [T].  A Go slice is a window on an array: [elems] are the elements
    below its length, [spare] those between its length and its capacity.
    A slice expression out of range panics; a method that can panic returns
    an [option].  Callbacks are pure functions. *)
Module Generated.

Section Methods.

Context {T : Type}.

Record slice : Type := {
  elems : list T;
  spare : list T
}.

Definition len (l : slice) : Z := Z.of_nat (length (elems l)).
Definition cap (l : slice) : Z := len l + Z.of_nat (length (spare l)).

(** The zero value of a slice type ([var l2 T]). *)
Definition nil_slice : slice := {| elems := []; spare := [] |}.

(** [l[:n]] is in range when [0 <= n <= cap(l)]. *)
Definition slice_to (l : slice) (n : Z) : option slice :=
  if (0 <=? n)%Z && (n <=? cap l)%Z then
    Some {| elems := take (Z.to_nat n) (elems l ++ spare l);
            spare := drop (Z.to_nat n) (elems l ++ spare l) |}
  else None.

(** [l[n:]] is in range when [0 <= n <= len(l)]. *)
Definition slice_from (l : slice) (n : Z) : option slice :=
  if (0 <=? n)%Z && (n <=? len l)%Z then
    Some {| elems := drop (Z.to_nat n) (elems l); spare := spare l |}
  else None.

(** [Take] ([getTakeFunction]) *)
Definition Take (l : slice) (n : Z) : option slice :=
  if (len l >=? n)%Z then slice_to l n else Some l.

(** [Drop] ([getDropFunction]) *)
Definition Drop (l : slice) (n : Z) : option slice :=
  if (len l >=? n)%Z then slice_from l n else Some nil_slice.

(** The loop of [TakeWhile] at index [i], with [rest] still to visit. *)
Fixpoint TakeWhile_loop (f : T → bool) (l : slice) (i : Z) (rest : list T)
    : option slice :=
  match rest with
  | [] => Some l
  | t :: rest => if negb (f t) then slice_to l i else TakeWhile_loop f l (i + 1) rest
  end.

(** [TakeWhile] ([getTakeWhileFunction]) *)
Definition TakeWhile (l : slice) (f : T → bool) : option slice :=
  TakeWhile_loop f l 0 (elems l).

(** The loop of [DropWhile] at index [i], with [rest] still to visit. *)
Fixpoint DropWhile_loop (f : T → bool) (l : slice) (i : Z) (rest : list T)
    : option slice :=
  match rest with
  | [] => Some nil_slice
  | t :: rest => if negb (f t) then slice_from l i else DropWhile_loop f l (i + 1) rest
  end.

(** [DropWhile] ([getDropWhileFunction]) *)
Definition DropWhile (l : slice) (f : T → bool) : option slice :=
  DropWhile_loop f l 0 (elems l).

(** The loop of [Reduce], with [rest] still to visit. *)
Fixpoint Reduce_loop (f : T → T → T) (t1 : T) (rest : list T) : T :=
  match rest with
  | [] => t1
  | t :: rest => Reduce_loop f (f t1 t) rest
  end.

(** [Reduce] ([getReduceFunction]) *)
Definition Reduce (l : slice) (t1 : T) (f : T → T → T) : T :=
  Reduce_loop f t1 (elems l).

(** The loop of [ReduceRight]: [k] is [i + 1], so the loop runs while
    [k] is positive; [l[i]] panics out of range. *)
Fixpoint ReduceRight_loop (f : T → T → T) (l : slice) (k : nat) (t1 : T)
    : option T :=
  match k with
  | O => Some t1
  | S i =>
      match elems l !! i with
      | Some t => ReduceRight_loop f l i (f t t1)
      | None => None
      end
  end.

(** [ReduceRight] ([getReduceRightFunction]) *)
Definition ReduceRight (l : slice) (t1 : T) (f : T → T → T) : option T :=
  ReduceRight_loop f l (length (elems l)) t1.

(** Index of the first element for which [f] fails. *)
Fixpoint firstFailing (f : T → bool) (l : list T) : option nat :=
  match l with
  | [] => None
  | t :: rest => if f t then S <$> firstFailing f rest else Some O
  end.

(** [Take] returns the whole list and [Drop] an empty one. *)
Definition whole_and_empty (l : slice) (n : Z) : Prop :=
  ∃ t d, Take l n = Some t ∧ elems t = elems l ∧
         Drop l n = Some d ∧ elems d = [].

(** [Take] returns the first [n] elements and [Drop] the remaining
    [len l - n]. *)
Definition split_at (l : slice) (n : Z) : Prop :=
  ∃ t d, Take l n = Some t ∧ elems t = take (Z.to_nat n) (elems l) ∧
         len t = n ∧
         Drop l n = Some d ∧ elems d = drop (Z.to_nat n) (elems l) ∧
         len d = (len l - n)%Z.

(** The behaviour of [Take] and [Drop] required for every [n]. *)
Definition Take_Drop_for_every_n : Prop :=
  ∀ (l : slice) (n : Z),
    ((len l ≤ n)%Z → whole_and_empty l n) ∧
    ((n < len l)%Z → split_at l n).

End Methods.

Arguments slice T : clear implicits.
Arguments Take_Drop_for_every_n T : clear implicits.

(** A slice whose capacity is its length. *)
Definition of_list {T} (l : list T) : slice T := {| elems := l; spare := [] |}.

(** A list of three elements. *)
Definition l123 : slice Z := of_list [1; 2; 3]%Z.

(** ** The other emitted methods *)

Section Transformers.

Context {T T2 : Type}.

(** The zero value of the element type of the result. *)
Variable zero : T2.

(** [make(list, n)]: [n] zero values, with capacity [n]. *)
Definition make (n : nat) : list T2 := replicate n zero.

(** [l2[i] = x]; an index out of range panics. *)
Definition store (l2 : list T2) (i : nat) (x : T2) : option (list T2) :=
  if decide (i < length l2)%nat then Some (<[i := x]> l2) else None.

(** The loop of [Map] at index [i], with [rest] still to visit. *)
Fixpoint Map_loop (f : T → T2) (i : nat) (rest : list T) (l2 : list T2)
    : option (list T2) :=
  match rest with
  | [] => Some l2
  | t :: rest =>
      match store l2 i (f t) with
      | Some l2 => Map_loop f (S i) rest l2
      | None => None
      end
  end.

(** [Map] ([getMapFunction]) *)
Definition Map (l : slice T) (f : T → T2) : option (slice T2) :=
  of_list <$> Map_loop f 0 (elems l) (make (length (elems l))).

(** The goroutines [PMap] starts, each with its index and element. *)
Definition PMap_tasks (l : slice T) : list (nat * T) :=
  imap (fun i t => (i, t)) (elems l).

(** The stores of the goroutines, in the order [order] in which they
    happen.  The goroutines share nothing but [l2], so a run of [PMap] is
    given by this order. *)
Fixpoint PMap_run (f : T → T2) (order : list (nat * T)) (l2 : list T2)
    : option (list T2) :=
  match order with
  | [] => Some l2
  | (i, t) :: order =>
      match store l2 i (f t) with
      | Some l2 => PMap_run f order l2
      | None => None
      end
  end.

(** [PMap] ([getPMapFunction]); [wg.Wait] returns when every goroutine is
    done. *)
Definition PMap (l : slice T) (f : T → T2) (order : list (nat * T))
    : option (slice T2) :=
  of_list <$> PMap_run f order (make (length (elems l))).

End Transformers.

Section Selectors.

Context {T : Type}.

(** The loop of [Filter]: [l2] grows by [append]. *)
Fixpoint Filter_loop (f : T → bool) (rest : list T) (l2 : list T) : list T :=
  match rest with
  | [] => l2
  | t :: rest => Filter_loop f rest (if f t then l2 ++ [t] else l2)
  end.

(** [Filter] ([getFilterFunction]): the elements of the result, whose
    capacity [append] chooses. *)
Definition Filter (l : slice T) (f : T → bool) : list T :=
  Filter_loop f (elems l) [].

(** [PFilter] ([getPFilterFunction]): the goroutines append under the
    mutex, in the order [order] in which they come to it. *)
Definition PFilter (l : slice T) (f : T → bool) (order : list T) : list T :=
  Filter_loop f order [].

(** The loop of [All], with the elements the predicate is called on. *)
Fixpoint All_loop (f : T → bool) (rest : list T) : bool * list T :=
  match rest with
  | [] => (true, [])
  | t :: rest =>
      if negb (f t) then (false, [t])
      else let '(b, calls) := All_loop f rest in (b, t :: calls)
  end.

(** [All] ([getAllFunction]) *)
Definition All (l : slice T) (f : T → bool) : bool := (All_loop f (elems l)).1.
Definition All_calls (l : slice T) (f : T → bool) : list T := (All_loop f (elems l)).2.

(** The loop of [Any], with the elements the predicate is called on. *)
Fixpoint Any_loop (f : T → bool) (rest : list T) : bool * list T :=
  match rest with
  | [] => (false, [])
  | t :: rest =>
      if f t then (true, [t])
      else let '(b, calls) := Any_loop f rest in (b, t :: calls)
  end.

(** [Any] ([getAnyFunction]) *)
Definition Any (l : slice T) (f : T → bool) : bool := (Any_loop f (elems l)).1.
Definition Any_calls (l : slice T) (f : T → bool) : list T := (Any_loop f (elems l)).2.

End Selectors.

Section Visitors.

Context {T S : Type}.

(** The callbacks of [Each] and [EachI] return nothing: what they do is a
    change of a state [S]. *)

(** The loop of [Each], with [rest] still to visit. *)
Fixpoint Each_loop (f : T → S → S) (rest : list T) (s : S) : S :=
  match rest with
  | [] => s
  | t :: rest => Each_loop f rest (f t s)
  end.

(** [Each] ([getEachFunction]) *)
Definition Each (l : slice T) (f : T → S → S) (s : S) : slice T * S :=
  (l, Each_loop f (elems l) s).

(** The loop of [EachI] at index [i], with [rest] still to visit. *)
Fixpoint EachI_loop (f : Z → T → S → S) (i : Z) (rest : list T) (s : S) : S :=
  match rest with
  | [] => s
  | t :: rest => EachI_loop f (i + 1) rest (f i t s)
  end.

(** [EachI] ([getEachIFunction]) *)
Definition EachI (l : slice T) (f : Z → T → S → S) (s : S) : slice T * S :=
  (l, EachI_loop f 0 (elems l) s).

End Visitors.

End Generated.

(** * Properties of the emitted methods *)

Module GeneratedFacts.

Import Generated.
Local Open Scope list_scope.
Local Open Scope nat_scope.

Section Facts.

Context {T : Type}.
Implicit Types (l : slice T) (n : Z) (f : T → bool).

Lemma len_nonneg l : (0 ≤ len l)%Z.
Proof. unfold len. lia. Qed.

Lemma len_le_cap l : (len l ≤ cap l)%Z.
Proof. unfold cap. lia. Qed.

Lemma slice_to_in_range l n :
  (0 ≤ n ≤ len l)%Z →
  slice_to l n =
    Some {| elems := take (Z.to_nat n) (elems l);
            spare := drop (Z.to_nat n) (elems l) ++ spare l |}.
Proof.
  intros Hn. unfold slice_to.
  pose proof (len_le_cap l) as Hcap.
  destruct (Z.leb_spec 0 n), (Z.leb_spec n (cap l)); try lia. simpl.
  assert (Z.to_nat n ≤ length (elems l)) as Hle by (unfold len in Hn; lia).
  by rewrite take_app_le, drop_app_le.
Qed.

Lemma slice_to_negative l n : (n < 0)%Z → slice_to l n = None.
Proof.
  intros Hn. unfold slice_to. by destruct (Z.leb_spec 0 n); [lia|].
Qed.

Lemma slice_from_in_range l n :
  (0 ≤ n ≤ len l)%Z →
  slice_from l n =
    Some {| elems := drop (Z.to_nat n) (elems l); spare := spare l |}.
Proof.
  intros Hn. unfold slice_from.
  by destruct (Z.leb_spec 0 n), (Z.leb_spec n (len l)); try lia.
Qed.

Lemma slice_from_negative l n : (n < 0)%Z → slice_from l n = None.
Proof.
  intros Hn. unfold slice_from. by destruct (Z.leb_spec 0 n); [lia|].
Qed.

Lemma guard_true l n : (n ≤ len l)%Z → (len l >=? n)%Z = true.
Proof. intros. apply Z.geb_le. lia. Qed.

(** ** The two folds *)

Lemma Reduce_loop_fold_left (g : T → T → T) rest t1 :
  Reduce_loop g t1 rest = fold_left g rest t1.
Proof. revert t1. induction rest as [|t rest IH]; intros t1; simpl; auto. Qed.

Lemma ReduceRight_loop_fold_right (g : T → T → T) l k t1 :
  k ≤ length (elems l) →
  ReduceRight_loop g l k t1 = Some (fold_right g t1 (take k (elems l))).
Proof.
  revert t1. induction k as [|i IH]; intros t1 Hk; simpl.
  - done.
  - destruct (lookup_lt_is_Some_2 (elems l) i) as [t Ht]; [lia|].
    rewrite Ht, IH by lia.
    by rewrite (take_S_r _ _ _ Ht), fold_right_app.
Qed.

(** ** The index at which [TakeWhile] and [DropWhile] stop *)

Lemma firstFailing_Some f (xs : list T) i :
  firstFailing f xs = Some i →
  i < length xs ∧
  (∃ t, xs !! i = Some t ∧ f t = false) ∧
  (∀ j t, j < i → xs !! j = Some t → f t = true).
Proof.
  revert i. induction xs as [|x xs IH]; intros i; simpl; [done|].
  destruct (f x) eqn:Hx.
  - destruct (firstFailing f xs) as [j|]; simpl; [|done].
    intros [= <-]. destruct (IH j eq_refl) as (Hlt & Hat & Hbefore).
    split; [lia|]. split; [done|].
    intros [|j'] t Hj; simpl; [by intros [= <-] | intros; eapply Hbefore; [|done]; lia].
  - intros [= <-]. split; [lia|]. split; [by exists x | intros; lia].
Qed.

Lemma firstFailing_None f (xs : list T) :
  firstFailing f xs = None → ∀ t, t ∈ xs → f t = true.
Proof.
  induction xs as [|x xs IH]; simpl; [by intros _ t ?%elem_of_nil|].
  destruct (f x) eqn:Hx; [|done].
  destruct (firstFailing f xs); [done|]. intros _ t [->| ?]%elem_of_cons; auto.
Qed.

Lemma TakeWhile_loop_spec f l (pre rest : list T) :
  TakeWhile_loop f l (Z.of_nat (length pre)) rest =
    match firstFailing f rest with
    | Some j => slice_to l (Z.of_nat (length pre + j))
    | None => Some l
    end.
Proof.
  revert pre. induction rest as [|t rest IH]; intros pre; simpl; [done|].
  destruct (f t); simpl.
  - replace (Z.of_nat (length pre) + 1)%Z with (Z.of_nat (length (pre ++ [t])))
      by (rewrite length_app; simpl; lia).
    rewrite IH. destruct (firstFailing f rest); simpl; [|done].
    f_equal. rewrite length_app. simpl. lia.
  - f_equal. lia.
Qed.

Lemma DropWhile_loop_spec f l (pre rest : list T) :
  DropWhile_loop f l (Z.of_nat (length pre)) rest =
    match firstFailing f rest with
    | Some j => slice_from l (Z.of_nat (length pre + j))
    | None => Some nil_slice
    end.
Proof.
  revert pre. induction rest as [|t rest IH]; intros pre; simpl; [done|].
  destruct (f t); simpl.
  - replace (Z.of_nat (length pre) + 1)%Z with (Z.of_nat (length (pre ++ [t])))
      by (rewrite length_app; simpl; lia).
    rewrite IH. destruct (firstFailing f rest); simpl; [|done].
    f_equal. rewrite length_app. simpl. lia.
  - f_equal. lia.
Qed.


(** ** Take and Drop *)

(** C8: the slice expressions of [Take] and [Drop] are in range exactly
    for [n >= 0].  For [0 <= n] the guarded branch has
    [0 <= n <= len l] and both methods return; for [n < 0] the guard
    [len l >= n] holds, both slice expressions are out of range and
    both methods panic. *)
Theorem Take_Drop_total_iff_nonneg l n :
  ((0 ≤ n)%Z →
     ((len l >=? n)%Z = true → (0 ≤ n ≤ len l)%Z) ∧
     is_Some (Take l n) ∧ is_Some (Drop l n)) ∧
  ((n < 0)%Z →
     (len l >=? n)%Z = true ∧
     slice_to l n = None ∧ slice_from l n = None ∧
     Take l n = None ∧ Drop l n = None).
Proof.
  pose proof (len_nonneg l) as Hlen. split; intros Hn.
  - split; [intros Hg%Z.geb_le; lia|].
    unfold Take, Drop. destruct (Z.geb_spec (len l) n) as [Hg|Hg]; [|by eauto].
    rewrite slice_to_in_range, slice_from_in_range by lia. by eauto.
  - unfold Take, Drop. rewrite guard_true by lia.
    by rewrite slice_to_negative, slice_from_negative.
Qed.

(** C5, amended: on a list of length [L], for every [n >= L] [Take]
    returns the whole list and [Drop] an empty one; for every
    [0 <= n < L] [Take] returns the first [n] elements and [Drop] the
    remaining [L - n]. *)
Theorem Take_Drop_nonneg l n :
  ((len l ≤ n)%Z → whole_and_empty l n) ∧
  ((0 ≤ n < len l)%Z → split_at l n).
Proof.
  pose proof (len_nonneg l) as Hlen. split; intros Hn.
  - unfold whole_and_empty, Take, Drop.
    destruct (Z.geb_spec (len l) n) as [Hg|Hg].
    + assert (n = len l) as -> by lia.
      rewrite slice_to_in_range, slice_from_in_range by lia.
      do 2 eexists. split; [done|]. simpl. unfold len.
      rewrite Nat2Z.id. split; [by rewrite take_ge|].
      split; [done|]. by rewrite drop_ge.
    + by exists l, nil_slice.
  - unfold split_at, Take, Drop. rewrite guard_true by lia.
    rewrite slice_to_in_range, slice_from_in_range by lia.
    do 2 eexists. split; [done|]. split; [done|].
    split; [unfold len in *; simpl; rewrite length_take; lia|].
    split; [done|]. split; [done|].
    unfold len in *. simpl. rewrite length_drop. lia.
Qed.

(** ** Reduce and ReduceRight *)

(** C9: [Reduce] is the left fold that calls the function on
    (accumulator, element) from the first element on; [ReduceRight] is
    the right fold that calls it on (element, accumulator) from the
    last element on. *)
Theorem Reduce_ReduceRight_folds l (seed : T) (g : T → T → T) :
  Reduce l seed g = fold_left g (elems l) seed ∧
  ReduceRight l seed g = Some (fold_right g seed (elems l)).
Proof.
  split.
  - apply Reduce_loop_fold_left.
  - unfold ReduceRight. rewrite ReduceRight_loop_fold_right by done.
    by rewrite take_ge.
Qed.

(** ** TakeWhile and DropWhile *)

(** C10: [TakeWhile] and [DropWhile] both return, and they cut the list
    at the same place: at the index [i] of the first element for which
    the predicate fails ([l[:i]] and [l[i:]]), or, when no element
    fails, into the whole list and the empty one.  The elements of the
    first result followed by those of the second are the list. *)
Theorem TakeWhile_DropWhile_split l f :
  ∃ tw dw,
    TakeWhile l f = Some tw ∧ DropWhile l f = Some dw ∧
    match firstFailing f (elems l) with
    | Some i =>
        slice_to l (Z.of_nat i) = Some tw ∧
        slice_from l (Z.of_nat i) = Some dw ∧
        (∃ t, elems l !! i = Some t ∧ f t = false) ∧
        (∀ j t, j < i → elems l !! j = Some t → f t = true)
    | None =>
        tw = l ∧ dw = nil_slice ∧ (∀ t, t ∈ elems l → f t = true)
    end ∧
    elems tw ++ elems dw = elems l.
Proof.
  unfold TakeWhile, DropWhile.
  pose proof (TakeWhile_loop_spec f l [] (elems l)) as Htw.
  pose proof (DropWhile_loop_spec f l [] (elems l)) as Hdw.
  change (Z.of_nat (length [])) with 0%Z in Htw, Hdw.
  rewrite Htw, Hdw. clear Htw Hdw. simpl.
  destruct (firstFailing f (elems l)) as [i|] eqn:Hi.
  - destruct (firstFailing_Some _ _ _ Hi) as (Hlt & Hat & Hbefore).
    assert (0 ≤ Z.of_nat i ≤ len l)%Z as Hrange by (unfold len; lia).
    rewrite slice_to_in_range, slice_from_in_range by done.
    do 2 eexists. repeat split; try done.
    simpl. by rewrite take_drop.
  - exists l, nil_slice. repeat split; try done.
    + by apply firstFailing_None.
    + simpl. by rewrite app_nil_r.
Qed.

End Facts.

Lemma Take_Drop_total_iff_nonneg_witness :
  (is_Some (Take l123 2) ∧ is_Some (Drop l123 2)) ∧
  (Take l123 (-1) = None ∧ Drop l123 (-1) = None).
Proof.
  split.
  - destruct (proj1 (Take_Drop_total_iff_nonneg l123 2)) as (_ & Ht & Hd); [lia|].
    by split.
  - destruct (proj2 (Take_Drop_total_iff_nonneg l123 (-1))) as (_ & _ & _ & Ht & Hd);
      [lia|]. by split.
Defined.

Lemma Take_Drop_nonneg_witness :
  whole_and_empty l123 5 ∧ split_at l123 2.
Proof.
  split.
  - apply (proj1 (Take_Drop_nonneg l123 5)). unfold len. simpl. lia.
  - apply (proj2 (Take_Drop_nonneg l123 2)). unfold len. simpl. lia.
Defined.

(** C5 as stated fails below zero: [Take(-1)] and [Drop(-1)] on a list of
    three elements panic, although [-1 < 3]. *)
Lemma Take_Drop_negative_counterexample :
  (-1 < len l123)%Z ∧ Take l123 (-1) = None ∧ Drop l123 (-1) = None ∧
  ¬ Take_Drop_for_every_n Z.
Proof.
  split; [done|]. split; [done|]. split; [done|].
  intros H. destruct (H l123 (-1)%Z) as [_ Hsplit].
  destruct Hsplit as (t & d & Htake & _); [done|]. discriminate Htake.
Qed.

Example Reduce_order (a b seed : Z) (g : Z → Z → Z) :
  Reduce (of_list [a; b]) seed g = g (g seed a) b ∧
  ReduceRight (of_list [a; b]) seed g = Some (g a (g b seed)).
Proof. done. Qed.

End GeneratedFacts.

(** * Properties of the generator *)

Section ListFacts.

Local Open Scope list_scope.

Lemma Filter_filter (l : list Generator) (p : Generator → bool) :
  GeneratorList.Filter l p = List.filter p l.
Proof.
  unfold GeneratorList.Filter.
  assert (∀ acc, foldl (fun l2 t => if p t then l2 ++ [t] else l2) acc l
                 = acc ++ List.filter p l) as H; [|apply H].
  induction l as [|t l IH]; intros acc; simpl; [by rewrite app_nil_r|].
  rewrite IH. destruct (p t); [|done]. by rewrite <- app_assoc.
Qed.

Lemma elem_of_selected (methodsMap : gmap string bool) gen :
  gen ∈ selected methodsMap ↔ gen ∈ generators ∧ is_Some (methodsMap !! name gen).
Proof.
  unfold selected. rewrite Filter_filter, list_elem_of_In, filter_In, <- list_elem_of_In.
  destruct (methodsMap !! name gen); split; intros [? H]; split;
    try done; try (by eexists); by destruct H.
Qed.

Lemma bind_Permutation_ext {A B} (h1 h2 : A → list B) (l1 l2 : list A) :
  l1 ≡ₚ l2 → (∀ x, x ∈ l2 → h1 x ≡ₚ h2 x) → l1 ≫= h1 ≡ₚ l2 ≫= h2.
Proof.
  intros Hl Hh. rewrite Hl. clear l1 Hl.
  induction l2 as [|x l2 IH]; [done|].
  rewrite !bind_cons. rewrite (Hh x) by left. rewrite IH; [done|].
  intros y Hy. apply Hh. by right.
Qed.

Lemma length_filter_bind {A B} (p : B → bool) (h : A → list B) (w : A → nat) (l : list A) :
  (∀ x, x ∈ l → length (List.filter p (h x)) = w x) →
  length (List.filter p (l ≫= h)) = sum_list (w <$> l).
Proof.
  induction l as [|x l IH]; intros Hw; [done|].
  rewrite bind_cons, List.filter_app, length_app. csimpl.
  rewrite Hw by left. f_equal. apply IH. intros y Hy. apply Hw. by right.
Qed.

Lemma sum_list_const {A} (w : A → nat) (c : nat) (l : list A) :
  (∀ x, x ∈ l → w x = c) → sum_list (w <$> l) = length l * c.
Proof.
  induction l as [|x l IH]; intros Hw; [done|]. csimpl.
  rewrite Hw by left. rewrite IH; [done|]. intros y Hy. apply Hw. by right.
Qed.

End ListFacts.

Section StringFacts.

Lemma append_nil_l (s : string) : "" ++ s = s.
Proof. reflexivity. Qed.

Lemma append_cons (c : ascii) (s t : string) : String c s ++ t = String c (s ++ t).
Proof. reflexivity. Qed.

Lemma append_nil_r (s : string) : s ++ "" = s.
Proof. induction s as [|c s IH]; [done | by rewrite append_cons, IH]. Qed.

Lemma append_assoc (s1 s2 s3 : string) : (s1 ++ s2) ++ s3 = s1 ++ s2 ++ s3.
Proof. induction s1 as [|c s1 IH]; [done | by rewrite !append_cons, IH]. Qed.

Lemma string_eqb_false (s1 s2 : string) : String.eqb s1 s2 = false ↔ s1 ≠ s2.
Proof. apply String.eqb_neq. Qed.

End StringFacts.

(** ** [generate] and [main] in terms of the calls *)

Section Expansion.

Variables (typeName listname : string) (range_m : string → entries).
Variable methodsMap : gmap string bool.

Lemma joined_app (a b : list string) : joined (a ++ b)%list = joined a ++ joined b.
Proof.
  induction a as [|x a IH]; simpl; [done|]. by rewrite IH, append_assoc.
Qed.

Lemma generate_expand :
  generate typeName listname range_m methodsMap =
    typeDecl typeName listname
      ++ joined (render <$> expand typeName listname range_m methodsMap).
Proof.
  unfold generate, expand. fold (selected methodsMap).
  generalize (selected methodsMap) as gs. generalize (typeDecl typeName listname) as code.
  unfold GeneratorList.Each. intros code gs. revert code.
  induction gs as [|gen gs IH]; intros code; simpl.
  - by rewrite append_nil_r.
  - rewrite IH, fmap_app, joined_app, <- append_assoc. f_equal.
    unfold callsOf. destruct (needMapToMap gen); simpl.
    + rewrite <- list_fmap_compose. generalize (range_m (name gen)) as es.
      intros es. revert code. induction es as [|[k v] es IHes]; intros code; simpl.
      * by rewrite append_nil_r.
      * by rewrite IHes, append_assoc.
    + by rewrite append_nil_r.
Qed.

End Expansion.

Section Assembly.

Variable WriteFile : string → string → option string.
Variable methodsMap : gmap string bool.

Lemma sections_unformatted (order : entries) inner (src : string) :
  sections unformatted order inner methodsMap src =
    Ok (src ++ joined (section_text methodsMap inner <$> order)).
Proof.
  revert src. induction order as [|[k1 v1] order IH]; intros src; simpl.
  - by rewrite append_nil_r.
  - unfold f, unformatted at 1. simpl. rewrite IH. by rewrite append_assoc.
Qed.

Lemma joined_bind {A} (h : A → list string) (xs : list A) :
  joined (xs ≫= h) = joined ((fun x => joined (h x)) <$> xs).
Proof.
  induction xs as [|x xs IH]; [done|].
  rewrite bind_cons, joined_app, IH. done.
Qed.

Lemma sections_fragments (s : Schedule) (src : string) :
  sections unformatted (outer s) (inner s) methodsMap src =
    Ok (src ++ joined (mainFragments methodsMap s)).
Proof.
  rewrite sections_unformatted. do 2 f_equal.
  unfold mainFragments. rewrite joined_bind. f_equal.
  apply list_fmap_ext. intros _ [k1 v1] _. unfold section_text. simpl.
  by rewrite generate_expand.
Qed.

End Assembly.

(** ** The type map *)

Section TypeMap.

Local Open Scope list_scope.

Lemma Split_nonempty (s : string) (sep : ascii) : strings.Split s sep ≠ [].
Proof.
  induction s as [|c s IH]; simpl; [done|].
  destruct (Ascii.eqb c sep); [done|]. by destruct (strings.Split s sep).
Qed.

Lemma bind_type_dom m t :
  dom (bind_type m t) = {[ hd "" (strings.Split t ":") ]} ∪ dom m.
Proof.
  unfold bind_type. pose proof (Split_nonempty t ":") as Hne.
  destruct (strings.Split t ":") as [|t0 [|t1 ts]]; [done| |]; simpl;
    by rewrite dom_insert_L.
Qed.

Lemma foldl_bind_type_dom (ts : list string) m :
  dom (foldl bind_type m ts)
    = list_to_set ((fun t => hd "" (strings.Split t ":")) <$> ts) ∪ dom m.
Proof.
  revert m. induction ts as [|t ts IH]; intros m; csimpl.
  - change (list_to_set (_ <$> [])) with (∅ : gset string).
    by rewrite (left_id_L ∅ (∪)).
  - rewrite IH, bind_type_dom.
    rewrite !(assoc_L (∪)). f_equal. apply (comm_L (∪)).
Qed.

Lemma getTypeMap_dom (targets : string) :
  targets ≠ "" →
  dom (getTypeMap targets) = list_to_set (canonicalNames targets).
Proof.
  intros Hne%string_eqb_false. unfold getTypeMap, canonicalNames. rewrite Hne.
  by rewrite foldl_bind_type_dom, dom_empty_L, (right_id_L ∅ (∪)).
Qed.

Lemma size_list_to_set_remove_dups (l : list string) :
  size (list_to_set l : gset string) = length (remove_dups l).
Proof.
  rewrite <- (size_list_to_set (C := gset string) (remove_dups l))
    by apply NoDup_remove_dups.
  f_equal. apply set_eq. intros x.
  by rewrite !elem_of_list_to_set, elem_of_remove_dups.
Qed.

(** The size of the type map is the number of distinct canonical names
    in the type specification. *)
Lemma getTypeMap_size (targets : string) :
  targets ≠ "" →
  size (getTypeMap targets) = length (remove_dups (canonicalNames targets)).
Proof.
  intros Hne. rewrite <- size_dom, (getTypeMap_dom _ Hne).
  apply size_list_to_set_remove_dups.
Qed.

Lemma valid_schedule_length typeMap s :
  valid_schedule typeMap s →
  length (outer s) = size typeMap ∧ ∀ t g, length (inner s t g) = size typeMap.
Proof.
  intros [Ho Hi]. split; [|intros t g]; rewrite <- length_map_to_list.
  - by rewrite Ho.
  - by rewrite (Hi t g).
Qed.

End TypeMap.

(** ** Counting the calls *)

Section Counting.

Local Open Scope list_scope.

Variables (typeName listname : string) (range_m : string → entries).
Variable methodsMap : gmap string bool.
Variable K : nat.
Hypothesis range_length : ∀ g, length (range_m g) = K.

Lemma callsOf_cross gen :
  length (List.filter isCrossType (callsOf typeName listname range_m gen))
    = if needMapToMap gen then K else 0.
Proof.
  unfold callsOf. destruct (needMapToMap gen) eqn:Hgen.
  - rewrite <- (range_length (name gen)). generalize (range_m (name gen)) as es.
    induction es as [|[k v] es IH]; [done|]. csimpl.
    unfold isCrossType at 1. simpl. rewrite Hgen. simpl. by rewrite IH.
  - simpl. unfold isCrossType. simpl. by rewrite Hgen.
Qed.

Lemma callsOf_single gen :
  length (List.filter isSingleType (callsOf typeName listname range_m gen))
    = if needMapToMap gen then 0 else 1.
Proof.
  unfold callsOf. destruct (needMapToMap gen) eqn:Hgen.
  - generalize (range_m (name gen)) as es.
    induction es as [|[k v] es IH]; [done|]. csimpl.
    unfold isSingleType at 1. simpl. by rewrite Hgen.
  - simpl. unfold isSingleType. simpl. by rewrite Hgen.
Qed.

Lemma sum_cross (gs : list Generator) :
  sum_list ((fun gen => if needMapToMap gen then K else 0) <$> gs)
    = K * length (List.filter needMapToMap gs).
Proof.
  induction gs as [|gen gs IH]; csimpl; [lia|].
  rewrite IH. destruct (needMapToMap gen); simpl; lia.
Qed.

Lemma sum_single (gs : list Generator) :
  sum_list ((fun gen => if needMapToMap gen then 0 else 1) <$> gs)
    = length (List.filter (fun gen => negb (needMapToMap gen)) gs).
Proof.
  induction gs as [|gen gs IH]; csimpl; [lia|].
  rewrite IH. by destruct (needMapToMap gen).
Qed.

Lemma expand_cross :
  length (List.filter isCrossType (expand typeName listname range_m methodsMap))
    = K * length (List.filter needMapToMap (selected methodsMap)).
Proof.
  unfold expand. rewrite <- sum_cross. apply length_filter_bind.
  intros gen _. apply callsOf_cross.
Qed.

Lemma expand_single :
  length (List.filter isSingleType (expand typeName listname range_m methodsMap))
    = length (List.filter (fun gen => negb (needMapToMap gen)) (selected methodsMap)).
Proof.
  unfold expand. rewrite <- sum_single. apply length_filter_bind.
  intros gen _. apply callsOf_single.
Qed.

End Counting.

(** C3: for a type specification that is not empty and lists [K] distinct
    canonical type names, and a selection [getMethodsMap] accepts, a run
    makes [K * S] single-type calls and [K * K * C] cross-type calls, where
    [S] and [C] count the selected generators without and with
    [needMapToMap]. *)
Theorem expansion_counts (types methods : string) (methodsMap : gmap string bool)
    (s : Schedule) :
  types ≠ "" →
  getMethodsMap methods = Ok methodsMap →
  valid_schedule (getTypeMap types) s →
  let K := length (remove_dups (canonicalNames types)) in
  let S := length (List.filter (fun gen => negb (needMapToMap gen)) (selected methodsMap)) in
  let C := length (List.filter needMapToMap (selected methodsMap)) in
  size (getTypeMap types) = K ∧
  length (List.filter isSingleType (mainCalls methodsMap s)) = K * S ∧
  length (List.filter isCrossType (mainCalls methodsMap s)) = K * K * C.
Proof.
  intros Hne _ Hvalid K S C.
  pose proof (getTypeMap_size types Hne) as HK. fold K in HK.
  destruct (valid_schedule_length _ _ Hvalid) as [Ho Hi]. rewrite HK in Ho, Hi.
  split; [done|]. unfold mainCalls. split.
  - rewrite (length_filter_bind _ _ (fun _ => S)).
    + rewrite sum_list_const with (c := S) by done. by rewrite Ho.
    + intros [k1 v1] _. apply expand_single.
  - rewrite (length_filter_bind _ _ (fun _ => K * C)).
    + rewrite sum_list_const with (c := K * C) by done. rewrite Ho. lia.
    + intros [k1 v1] _. by apply expand_cross.
Qed.

(** ** The order of the output *)

Section Order.

Local Open Scope list_scope.

Lemma callsOf_ext typeName listname (r1 r2 : string → entries) gen :
  r1 (name gen) = r2 (name gen) →
  callsOf typeName listname r1 gen = callsOf typeName listname r2 gen.
Proof. intros H. unfold callsOf. by rewrite H. Qed.

Lemma generate_ext typeName listname (r1 r2 : string → entries) methodsMap :
  (∀ g, r1 g = r2 g) →
  generate typeName listname r1 methodsMap = generate typeName listname r2 methodsMap.
Proof.
  intros H. rewrite !generate_expand. do 3 f_equal. unfold expand.
  apply list_bind_ext; [|done]. intros gen. by apply callsOf_ext.
Qed.

Lemma sections_ext format_Source (order : entries) (i1 i2 : string → string → entries)
    methodsMap src :
  (∀ t g, i1 t g = i2 t g) →
  sections format_Source order i1 methodsMap src
    = sections format_Source order i2 methodsMap src.
Proof.
  intros H. revert src. induction order as [|[k1 v1] order IH]; intros src; simpl; [done|].
  rewrite (generate_ext k1 _ (i1 k1) (i2 k1)) by (intros g; apply H).
  destruct (f format_Source _); simpl; [apply IH | done].
Qed.

Lemma callsOf_Permutation typeName listname (r1 r2 : string → entries) gen :
  r1 (name gen) ≡ₚ r2 (name gen) →
  callsOf typeName listname r1 gen ≡ₚ callsOf typeName listname r2 gen.
Proof. intros H. unfold callsOf. destruct (needMapToMap gen); by rewrite ?H. Qed.

Lemma expand_Permutation typeName listname (r1 r2 : string → entries) methodsMap :
  (∀ g, r1 g ≡ₚ r2 g) →
  expand typeName listname r1 methodsMap ≡ₚ expand typeName listname r2 methodsMap.
Proof.
  intros H. unfold expand. apply bind_Permutation_ext; [done|].
  intros gen _. by apply callsOf_Permutation.
Qed.

Lemma mainFragments_Permutation methodsMap (s1 s2 : Schedule) :
  outer s1 ≡ₚ outer s2 →
  (∀ t g, inner s1 t g ≡ₚ inner s2 t g) →
  mainFragments methodsMap s1 ≡ₚ mainFragments methodsMap s2.
Proof.
  intros Ho Hi. unfold mainFragments. apply bind_Permutation_ext; [done|].
  intros [k1 v1] _. constructor. apply fmap_Permutation.
  apply expand_Permutation. intros g. apply Hi.
Qed.

End Order.

(** C1, amended: two runs on the same inputs append the same pieces of text
    (declarations of list types and methods), each as often, in an order
    that follows the orders in which the runs visit the type map; when the
    type specification resolves to one type, the two runs leave the same
    text. *)
Theorem output_determined_up_to_order
    (format_Source : string → fallible string)
    (WriteFile : string → string → option string)
    (packageName types methods outputName : string) (testrun : bool)
    (s1 s2 : Schedule) :
  valid_schedule (getTypeMap types) s1 →
  valid_schedule (getTypeMap types) s2 →
  (∀ methodsMap, mainFragments methodsMap s1 ≡ₚ mainFragments methodsMap s2) ∧
  (size (getTypeMap types) = 1 →
     main format_Source WriteFile packageName types methods outputName testrun s1 =
     main format_Source WriteFile packageName types methods outputName testrun s2).
Proof.
  intros [Ho1 Hi1] [Ho2 Hi2]. split.
  - intros methodsMap. apply mainFragments_Permutation.
    + by rewrite Ho1, Ho2.
    + intros t g. by rewrite Hi1, Hi2.
  - intros Hsize. rewrite <- length_map_to_list in Hsize.
    destruct (map_to_list (getTypeMap types)) as [|x [|y l]]; try done.
    apply Permutation_singleton_r in Ho1, Ho2.
    assert (∀ t g, inner s1 t g = inner s2 t g) as Hi.
    { intros t g. specialize (Hi1 t g). specialize (Hi2 t g).
      apply Permutation_singleton_r in Hi1, Hi2. congruence. }
    unfold main. rewrite Ho1, Ho2.
    destruct (String.length types =? 0)%nat; [done|].
    destruct (getMethodsMap methods) as [methodsMap|]; [|done].
    by rewrite (sections_ext _ _ (inner s1) (inner s2)).
Qed.

Lemma int_first_valid : valid_schedule (getTypeMap "int,string") int_first.
Proof. split; [|intros t g]; simpl; by vm_compute; apply perm_swap. Qed.

Lemma string_first_valid : valid_schedule (getTypeMap "int,string") string_first.
Proof. split; [|intros t g]; simpl; by vm_compute. Qed.

(** C1 as stated fails: on the type specification ["int,string"] and the
    selection ["Map"], a run that visits [int] first and a run that visits
    [string] first append the pieces in different orders and, when the
    formatter returns its input, write different texts. *)
Lemma output_order_counterexample :
  valid_schedule (getTypeMap "int,string") int_first ∧
  valid_schedule (getTypeMap "int,string") string_first ∧
  (∃ methodsMap, getMethodsMap "Map" = Ok methodsMap ∧
     mainFragments methodsMap int_first ≠ mainFragments methodsMap string_first) ∧
  main unformatted written "main" "int,string" "Map" "fungen_auto.go" false int_first ≠
  main unformatted written "main" "int,string" "Map" "fungen_auto.go" false string_first ∧
  ¬ output_determined_by_inputs.
Proof.
  assert (main unformatted written "main" "int,string" "Map" "fungen_auto.go" false int_first ≠
          main unformatted written "main" "int,string" "Map" "fungen_auto.go" false string_first)
    as Hmain by (by vm_compute).
  split; [apply int_first_valid|]. split; [apply string_first_valid|].
  split; [|split; [done|]].
  - eexists. split; [reflexivity|]. by vm_compute.
  - intros H. apply Hmain.
    apply (H unformatted written "main" "int,string" "Map" "fungen_auto.go" false
             int_first string_first int_first_valid string_first_valid).
Qed.

(** ** Selection *)

Section Selection.

Local Open Scope list_scope.

Lemma Each_insert_lookup (gs : list Generator) (m : gmap string bool) (n : string) :
  GeneratorList.Each gs (fun gen result => <[name gen := true]> result) m !! n
    = if decide (n ∈ name <$> gs) then Some true else m !! n.
Proof.
  unfold GeneratorList.Each. revert m.
  induction gs as [|gen gs IH]; intros m; [done|].
  rewrite fmap_cons. cbn [foldl].
  - rewrite IH. destruct (decide (n ∈ name <$> gs)) as [Hin|Hin].
    + by rewrite decide_True by (by right).
    + destruct (decide (n = name gen)) as [->|Hne].
      * rewrite lookup_insert_eq. by rewrite decide_True by left.
      * rewrite lookup_insert_ne by done.
        rewrite decide_False; [done|]. by intros [?|?]%elem_of_cons.
Qed.

Lemma validMethods_lookup (n : string) :
  GeneratorList.Each generators
    (fun gen (validMethods : gmap string bool) => <[name gen := true]> validMethods) ∅ !! n
    = if decide (n ∈ registryNames) then Some true else None.
Proof. by rewrite Each_insert_lookup, lookup_empty. Qed.

Lemma Sprintf_notValid (method : string) :
  fmt.Sprintf "Error: -method parameter '%s' is not valid" [method] = notValid method.
Proof. reflexivity. Qed.

(** The loop stops at the first name that is not valid. *)
Lemma selectMethods_unknown (validMethods result : gmap string bool)
    (names : list string) :
  (∃ t, t ∈ names ∧ validMethods !! t = None) →
  ∃ pre t post,
    names = pre ++ (t :: post) ∧
    Forall (fun u => is_Some (validMethods !! u)) pre ∧
    validMethods !! t = None ∧
    selectMethods validMethods result names = Fatal (notValid t).
Proof.
  revert result. induction names as [|n names IH]; intros result (t & Hin & Ht).
  - by apply elem_of_nil in Hin.
  - simpl. destruct (validMethods !! n) as [b|] eqn:Hn.
    + apply elem_of_cons in Hin as [->|Hin]; [congruence|].
      destruct (IH (<[n := true]> result)) as (pre & u & post & -> & Hpre & Hu & Hsel);
        [by exists t|].
      exists (n :: pre), u, post. split; [done|]. split; [|done].
      constructor; [by rewrite Hn|done].
    + exists [], n, names. by rewrite Sprintf_notValid.
Qed.

Lemma getMethodsMap_all :
  ∃ methodsMap, getMethodsMap "" = Ok methodsMap ∧
    ∀ n, methodsMap !! n = Some true ↔ n ∈ registryNames.
Proof.
  eexists. split; [reflexivity|]. intros n. rewrite Each_insert_lookup, lookup_empty.
  fold registryNames. by destruct (decide (n ∈ registryNames)).
Qed.

End Selection.

(** C6: the empty methods specification selects every name of the
    registry; a methods specification with a name that is not in the
    registry makes [getMethodsMap] end the run with the diagnostic that
    quotes this name (the first such name of the specification), so that
    [main] neither prints nor writes a text. *)
Theorem method_selection :
  (∃ methodsMap, getMethodsMap "" = Ok methodsMap ∧
     ∀ n, methodsMap !! n = Some true ↔ n ∈ registryNames) ∧
  (∀ methodsStr : string,
     methodsStr ≠ "" →
     (∃ t, t ∈ strings.Split methodsStr "," ∧ (t ∉ registryNames)) →
     ∃ pre t post,
       strings.Split methodsStr "," = (pre ++ (t :: post))%list ∧
       Forall (fun u => u ∈ registryNames) pre ∧
       (t ∉ registryNames) ∧
       getMethodsMap methodsStr = Fatal (notValid t) ∧
       ∀ format_Source WriteFile packageName types outputName testrun s,
         (types ≠ "" →
            main format_Source WriteFile packageName types methodsStr outputName testrun s
              = FatalExit (notValid t)) ∧
         (∀ filename src,
            main format_Source WriteFile packageName types methodsStr outputName testrun s
              ≠ Printed filename src ∧
            main format_Source WriteFile packageName types methodsStr outputName testrun s
              ≠ Written filename src)).
Proof.
  split; [apply getMethodsMap_all|].
  intros methodsStr Hne%string_eqb_false (t & Hin & Ht).
  set (validMethods := GeneratorList.Each generators
         (fun gen (validMethods : gmap string bool) => <[name gen := true]> validMethods) ∅).
  destruct (selectMethods_unknown validMethods ∅ (strings.Split methodsStr ","))
    as (pre & u & post & Hsplit & Hpre & Hu & Hsel).
  { exists t. split; [done|]. unfold validMethods. rewrite validMethods_lookup.
    by rewrite decide_False. }
  assert (getMethodsMap methodsStr = Fatal (notValid u)) as Hget.
  { unfold getMethodsMap. by rewrite Hne. }
  exists pre, u, post. split; [done|]. split; [|split; [|split; [done|]]].
  - eapply Forall_impl; [apply Hpre|]. intros v [b Hv]. unfold validMethods in Hv.
    rewrite validMethods_lookup in Hv. by destruct (decide (v ∈ registryNames)).
  - unfold validMethods in Hu. rewrite validMethods_lookup in Hu.
    by destruct (decide (u ∈ registryNames)).
  - intros format_Source WriteFile packageName types outputName testrun s.
    unfold main. rewrite Hget. split.
    + intros Htypes. destruct types; [done|]. done.
    + intros filename src. by destruct (String.length types =? 0)%nat.
Qed.

Lemma method_selection_witness :
  ∃ pre t post,
    strings.Split "Map,Foo" "," = (pre ++ (t :: post))%list ∧
    Forall (fun u => u ∈ registryNames) pre ∧
    (t ∉ registryNames) ∧
    getMethodsMap "Map,Foo" = Fatal (notValid t).
Proof.
  destruct (proj2 method_selection "Map,Foo") as (pre & t & post & H1 & H2 & H3 & H4 & _).
  - done.
  - exists "Foo". split; [apply list_elem_of_lookup; by exists 1|]. compute_done.
  - by exists pre, t, post.
Defined.

(** ** The header *)

Section Header.

Lemma header_split (packageName importSync : string) :
  header packageName importSync = headerBefore packageName ++ importSync ++ headerAfter.
Proof. unfold headerBefore. rewrite !append_assoc. reflexivity. Qed.

Lemma starts_with_append (pat s : string) :
  starts_with pat s = true → ∃ r, s = pat ++ r.
Proof.
  revert s. induction pat as [|a pat IH]; intros s H; [by exists s|].
  destruct s as [|b s]; [done|]. simpl in H.
  apply andb_prop in H as [->%Ascii.eqb_eq H].
  destruct (IH s H) as [r ->]. by exists r.
Qed.

Lemma no_dquote_append (a b : string) :
  no_dquote (a ++ b) = no_dquote a && no_dquote b.
Proof.
  induction a as [|c a IH]; [done|]. rewrite append_cons. simpl.
  by rewrite IH, andb_assoc.
Qed.

Lemma first_dquote_append (a b : string) :
  no_dquote a = true →
  first_dquote (a ++ b) = Nat.add (String.length a) <$> first_dquote b.
Proof.
  induction a as [|c a IH]; intros Ha.
  - rewrite append_nil_l. by destruct (first_dquote b).
  - rewrite append_cons. simpl in *. apply andb_prop in Ha as [Hc Ha].
    destruct (is_dquote c); [done|]. rewrite (IH Ha).
    by destruct (first_dquote b).
Qed.

Lemma first_dquote_import_sync (r : string) :
  first_dquote (import_sync ++ r) = Some 7.
Proof. reflexivity. Qed.

Lemma no_dquote_import_sync (r : string) : no_dquote (import_sync ++ r) = false.
Proof. reflexivity. Qed.

Lemma occurrences_cons (pat : string) (c : ascii) (s : string) :
  occurrences pat (String c s)
    = (if starts_with pat (String c s) then 1 else 0) + occurrences pat s.
Proof. reflexivity. Qed.

(** A text without double quote does not contain the import. *)
Lemma occurrences_no_dquote (s : string) :
  no_dquote s = true → occurrences import_sync s = 0.
Proof.
  assert (∀ s, no_dquote s = true → starts_with import_sync s = false) as Hprefix.
  { intros s' Hs'. destruct (starts_with import_sync s') eqn:Hp; [|done].
    apply starts_with_append in Hp as [r ->]. by rewrite no_dquote_import_sync in Hs'. }
  induction s as [|c s IH]; intros Hs; [done|].
  rewrite occurrences_cons, (Hprefix _ Hs). simpl in Hs.
  apply andb_prop in Hs as [_ Hs]. by rewrite IH.
Qed.

Lemma occurrences_import_sync_here (r : string) :
  occurrences import_sync (import_sync ++ r) = 1 + occurrences import_sync r.
Proof. reflexivity. Qed.

(** Between two texts without double quote the import occurs once. *)
Lemma occurrences_once (a b : string) :
  no_dquote a = true → no_dquote b = true →
  occurrences import_sync (a ++ import_sync ++ b) = 1.
Proof.
  intros Ha Hb. induction a as [|c a IH].
  - by rewrite append_nil_l, occurrences_import_sync_here, occurrences_no_dquote.
  - rewrite append_cons, occurrences_cons.
    destruct (starts_with import_sync _) eqn:Hp.
    + apply starts_with_append in Hp as [r Hr].
      apply (f_equal first_dquote) in Hr. rewrite <- append_cons in Hr.
      rewrite (first_dquote_append _ _ Ha), !first_dquote_import_sync in Hr.
      simpl in Hr. injection Hr. lia.
    + simpl in Ha. apply andb_prop in Ha as [_ Ha]. by rewrite IH.
Qed.

Lemma no_dquote_headerBefore (packageName : string) :
  no_dquote packageName = true → no_dquote (headerBefore packageName) = true.
Proof.
  intros H. unfold headerBefore. by rewrite !no_dquote_append, H.
Qed.

Lemma needImportSync_true (methodsMap : gmap string bool) :
  needImportSync methodsMap = true ↔
  ∃ gen, gen ∈ generators ∧ methodsMap !! name gen = Some true ∧ needSync gen = true.
Proof.
  unfold needImportSync. rewrite Filter_filter, Nat.ltb_lt. split.
  - intros Hlen.
    destruct (List.filter _ generators) as [|gen l] eqn:Hf; [simpl in Hlen; lia|].
    assert (In gen (List.filter
      (fun gen => default false (methodsMap !! name gen) && needSync gen) generators))
      as [Hin Hp%andb_prop]%filter_In by (rewrite Hf; by left).
    exists gen. rewrite list_elem_of_In. split; [done|].
    destruct Hp as [Hsel Hsync]. split; [|done].
    by destruct (methodsMap !! name gen) as [[]|].
  - intros (gen & Hin & Hsel & Hsync).
    assert (In gen (List.filter
      (fun gen => default false (methodsMap !! name gen) && needSync gen) generators))
      as Hf.
    { apply filter_In. rewrite <- list_elem_of_In. split; [done|].
      by rewrite Hsel, Hsync. }
    destruct (List.filter _ generators); [done | simpl; lia].
Qed.

End Header.

(** C7: the header holds the declaration [import "sync"] exactly when a
    selected generator has [needSync]; the text of the import then occurs
    once in the header (and not at all otherwise), and the header comes
    before everything [main] appends, so before every type declaration. *)
Theorem sync_import (methodsMap : gmap string bool) (packageName : string) :
  (needImportSync methodsMap = true ↔
     ∃ gen, gen ∈ generators ∧ methodsMap !! name gen = Some true ∧ needSync gen = true) ∧
  header packageName (importSyncOf methodsMap)
    = headerBefore packageName
        ++ (if needImportSync methodsMap then import_sync else "") ++ headerAfter ∧
  (no_dquote packageName = true →
     occurrences import_sync (header packageName (importSyncOf methodsMap))
       = if needImportSync methodsMap then 1 else 0) ∧
  (∀ s, sections unformatted (outer s) (inner s) methodsMap
          (header packageName (importSyncOf methodsMap))
        = Ok (header packageName (importSyncOf methodsMap)
                ++ joined (mainFragments methodsMap s))).
Proof.
  split; [apply needImportSync_true|]. split; [apply header_split|].
  split; [|intros s; apply sections_fragments].
  intros Hpkg. rewrite header_split. unfold importSyncOf.
  pose proof (no_dquote_headerBefore _ Hpkg) as Hbefore.
  destruct (needImportSync methodsMap).
  - by apply occurrences_once.
  - apply occurrences_no_dquote. by rewrite append_nil_l, no_dquote_append, Hbefore.
Qed.

Lemma sync_import_witness :
  occurrences import_sync (header "main" (importSyncOf {["PMap" := true]})) = 1 ∧
  occurrences import_sync (header "main" (importSyncOf {["Map" := true; "Filter" := true]}))
    = 0.
Proof.
  split.
  - etrans; [apply (proj1 (proj2 (proj2 (sync_import {["PMap" := true]} "main"))))|];
      by vm_compute.
  - etrans; [apply (proj1 (proj2 (proj2
               (sync_import {["Map" := true; "Filter" := true]} "main"))))|];
      by vm_compute.
Defined.

(** ** Cross-type methods *)

Section CrossType.

Lemma doPrintf_then_spec (format : string) (a : list string) (argNum skip : nat)
    (tail : string) :
  fmt.doPrintf_then format a argNum skip tail
    = fmt.doPrintf format a argNum skip ++ tail.
Proof.
  revert argNum skip. induction format as [|c rest IH]; intros argNum skip; [done|].
  cbn [fmt.doPrintf_then fmt.doPrintf]. destruct skip as [|skip]; [|apply IH].
  destruct (fmt.verb (String c rest) argNum) as [[k n]|].
  - by rewrite IH, append_assoc.
  - by rewrite IH, append_cons.
Qed.

Lemma declaration_append (listName methodName typeName targetType resultList body : string) :
  declaration listName methodName typeName targetType resultList ++ body =
    "func (l " ++ listName ++ ") " ++ methodName ++ "(f func(" ++ typeName ++ ") "
      ++ targetType ++ ") " ++ resultList ++ " {" ++ body.
Proof. unfold declaration. by rewrite !append_assoc. Qed.

Lemma getMapFunction_text (listName typeName targetType targetTypeName : string) :
  ∃ comment body,
    getMapFunction listName typeName targetType targetTypeName =
      comment
      ++ declaration listName ("Map" ++ strings.Title targetTypeName) typeName targetType
           (targetListNameOf listName targetType targetTypeName)
      ++ body.
Proof.
  exists (fmt.Sprintf "
        // Map%[4]s is a method on %[1]s that takes a function of type %[2]s -> %[3]s and applies it to every member of %[1]s
        "
            [listName; typeName; targetType; strings.Title targetTypeName]).
  exists (fmt.Sprintf "
            l2 := make(%[5]s, len(l))
            for i, t := range l {
                l2[i] = f(t)
            }
            return l2
        }
        "
            [listName; typeName; targetType; strings.Title targetTypeName;
             targetListNameOf listName targetType targetTypeName]).
  unfold getMapFunction. fold (targetListNameOf listName targetType targetTypeName).
  rewrite declaration_append. unfold fmt.Sprintf. rewrite <- doPrintf_then_spec.
  vm_compute. reflexivity.
Qed.

Lemma getPMapFunction_text (listName typeName targetType targetTypeName : string) :
  ∃ comment body,
    getPMapFunction listName typeName targetType targetTypeName =
      comment
      ++ declaration listName ("PMap" ++ strings.Title targetTypeName) typeName targetType
           (targetListNameOf listName targetType targetTypeName)
      ++ body.
Proof.
  exists (fmt.Sprintf "
        // PMap%[4]s is similar to Map%[4]s except that it executes the function on each member in parallel.
        "
            [listName; typeName; targetType; strings.Title targetTypeName]).
  exists (fmt.Sprintf "
            wg := sync.WaitGroup{}
            l2 := make(%[5]s, len(l))
            for i, t := range l {
                wg.Add(1)
                go func(i int, t %[2]s){
                    l2[i] = f(t)
                    wg.Done()
                }(i, t)
            }
            wg.Wait()
            return l2
        }
        "
            [listName; typeName; targetType; strings.Title targetTypeName;
             targetListNameOf listName targetType targetTypeName]).
  unfold getPMapFunction. fold (targetListNameOf listName targetType targetTypeName).
  rewrite declaration_append. unfold fmt.Sprintf. rewrite <- doPrintf_then_spec.
  vm_compute. reflexivity.
Qed.

Lemma cross_generators gen :
  gen ∈ generators → needMapToMap gen = true →
  (name gen = "Map" ∧ method gen = getMapFunction) ∨
  (name gen = "PMap" ∧ method gen = getPMapFunction).
Proof.
  unfold generators. intros Hin Hcross.
  repeat (apply elem_of_cons in Hin as [->|Hin]); simpl in *;
    try discriminate; auto.
  by apply elem_of_nil in Hin.
Qed.

Lemma elem_of_expand typeName listname range_m methodsMap c :
  c ∈ expand typeName listname range_m methodsMap ↔
  ∃ gen, gen ∈ selected methodsMap ∧ c ∈ callsOf typeName listname range_m gen.
Proof.
  unfold expand. rewrite list_elem_of_bind.
  split; intros (gen & H1 & H2); by exists gen.
Qed.

End CrossType.

(** C4: for every selected cross-type generator and every entry [(k, v)]
    of the type map its loop visits, [generate] makes one call whose text
    declares the method under the generator's bare name when [k] is the
    source type, whatever the aliases are, and under the bare name followed
    by [strings.Title v] otherwise; every cross-type call arises this
    way. *)
Theorem cross_method_name (typeName listname : string) (range_m : string → entries)
    (methodsMap : gmap string bool) :
  (∀ gen k v,
     gen ∈ selected methodsMap → needMapToMap gen = true →
     (k, v) ∈ range_m (name gen) →
     let c := {| c_gen := gen; c_listName := listname; c_typeName := typeName;
                 c_targetType := k;
                 c_targetTypeName := targetTypeNameOf typeName k v |} in
     let methodName :=
       if String.eqb k typeName then name gen else name gen ++ strings.Title v in
     c ∈ expand typeName listname range_m methodsMap ∧
     ∃ comment body,
       render c =
         comment
         ++ declaration listname methodName typeName k
              (targetListNameOf listname k (targetTypeNameOf typeName k v))
         ++ body) ∧
  (∀ c, c ∈ expand typeName listname range_m methodsMap → isCrossType c = true →
     ∃ k v, (k, v) ∈ range_m (name (c_gen c)) ∧
       c = {| c_gen := c_gen c; c_listName := listname; c_typeName := typeName;
              c_targetType := k;
              c_targetTypeName := targetTypeNameOf typeName k v |}).
Proof.
  split.
  - intros gen k v Hsel Hcross Hkv c methodName. split.
    + apply elem_of_expand. exists gen. split; [done|].
      unfold callsOf. rewrite Hcross. apply list_elem_of_fmap. by exists (k, v).
    + assert (methodName = name gen ++ strings.Title (targetTypeNameOf typeName k v))
        as ->.
      { unfold methodName, targetTypeNameOf. destruct (String.eqb k typeName); [|done].
        by rewrite append_nil_r. }
      apply elem_of_selected in Hsel as [Hin _].
      destruct (cross_generators gen Hin Hcross) as [[Hname Hmethod]|[Hname Hmethod]];
        unfold render, c; simpl; rewrite Hname, Hmethod.
      * apply getMapFunction_text.
      * apply getPMapFunction_text.
  - intros c (gen & Hsel & Hc)%elem_of_expand Hcross. unfold callsOf in Hc.
    destruct (needMapToMap gen) eqn:Hgen.
    + apply list_elem_of_fmap in Hc as ([k v] & -> & Hkv). by exists k, v.
    + apply list_elem_of_singleton in Hc as ->. unfold isCrossType in Hcross.
      simpl in Hcross. congruence.
Qed.

Lemma cross_method_name_witness :
  let c := {| c_gen := Map_generator; c_listName := "intList"; c_typeName := "int";
              c_targetType := "string";
              c_targetTypeName := targetTypeNameOf "int" "string" "S" |} in
  let methodName :=
    if String.eqb "string" "int" then name Map_generator
    else name Map_generator ++ strings.Title "S" in
  c ∈ expand "int" "intList" int_and_S {["Map" := true]} ∧
  ∃ comment body,
    render c =
      comment
      ++ declaration "intList" methodName "int" "string"
           (targetListNameOf "intList" "string" (targetTypeNameOf "int" "string" "S"))
      ++ body.
Proof.
  apply (proj1 (cross_method_name "int" "intList" int_and_S {["Map" := true]})
           Map_generator "string" "S").
  - apply elem_of_selected. split; [by left|]. by eexists.
  - reflexivity.
  - by right; left.
Defined.

Example MapS_name :
  (if String.eqb "string" "int" then name Map_generator
   else name Map_generator ++ strings.Title "S") = "MapS".
Proof. reflexivity. Qed.

(** C2: the code names the result list of a cross-type method after the
    canonical name of the target type, not after its alias.  On the type
    specification ["int,string:S"] and the selection ["Map"], the list type
    declared for [string] is [SList], but [MapS] on [intList] is declared
    to return, and allocates, [stringList], a type the text nowhere
    declares. *)
Theorem MapS_returns_stringList :
  getTypeMap "int,string:S" !! "string" = Some "S" ∧
  targetListNameOf "intList" "string" (targetTypeNameOf "int" "string" "S") = "stringList" ∧
  ∃ src,
    main unformatted written "main" "int,string:S" "Map" "fungen_auto.go" true
      (listed_schedule (getTypeMap "int,string:S")) = Printed "fungen_auto.go" src ∧
    contains "type SList []string" src = true ∧
    contains "func (l intList) MapS(f func(int) string) stringList {" src = true ∧
    contains "l2 := make(stringList, len(l))" src = true ∧
    contains "func (l intList) MapS(f func(int) string) SList {" src = false ∧
    contains "type stringList" src = false.
Proof.
  split; [by vm_compute|]. split; [by vm_compute|].
  eexists. split; [vm_compute; reflexivity|]. by vm_compute.
Qed.

(** ** Runs on concrete inputs *)

Lemma listed_schedule_valid (typeMap : gmap string string) :
  valid_schedule typeMap (listed_schedule typeMap).
Proof. by split. Qed.

Lemma expansion_counts_witness :
  ∃ methodsMap,
    getMethodsMap "Map,Filter" = Ok methodsMap ∧
    length (List.filter isSingleType
              (mainCalls methodsMap (listed_schedule (getTypeMap "int,string:S")))) = 2 ∧
    length (List.filter isCrossType
              (mainCalls methodsMap (listed_schedule (getTypeMap "int,string:S")))) = 4.
Proof.
  eexists. split; [reflexivity|].
  pose proof (expansion_counts "int,string:S" "Map,Filter" _
                (listed_schedule (getTypeMap "int,string:S"))
                ltac:(discriminate) eq_refl
                ltac:(split; [reflexivity | intros; reflexivity])) as H.
  cbv zeta in H. destruct H as (_ & HS & HC). split.
  - etrans; [exact HS|]. by vm_compute.
  - etrans; [exact HC|]. by vm_compute.
Defined.

(** The one order on the type map of ["int"]. *)
Lemma only_int_valid :
  valid_schedule (getTypeMap "int")
    {| outer := [("int", "int")]; inner := fun _ _ => [("int", "int")] |}.
Proof. split; [|intros t g]; simpl; by vm_compute. Qed.

Lemma output_determined_up_to_order_witness :
  (∀ methodsMap,
     mainFragments methodsMap int_first ≡ₚ mainFragments methodsMap string_first) ∧
  main unformatted written "main" "int" "" "fungen_auto.go" false
    (listed_schedule (getTypeMap "int")) =
  main unformatted written "main" "int" "" "fungen_auto.go" false
    {| outer := [("int", "int")]; inner := fun _ _ => [("int", "int")] |}.
Proof.
  split.
  - apply (proj1 (output_determined_up_to_order unformatted written
                    "main" "int,string" "Map" "fungen_auto.go" false
                    int_first string_first int_first_valid string_first_valid)).
  - apply (proj2 (output_determined_up_to_order unformatted written
                    "main" "int" "" "fungen_auto.go" false _ _
                    (listed_schedule_valid _) only_int_valid)).
    by vm_compute.
Defined.

Example getMethodsMap_unknown :
  getMethodsMap "Map,Foo" = Fatal "Error: -method parameter 'Foo' is not valid".
Proof. reflexivity. Qed.

Example getMethodsMap_trailing_comma :
  getMethodsMap "Map," = Fatal "Error: -method parameter '' is not valid".
Proof. reflexivity. Qed.

Example getTypeMap_aliases :
  getTypeMap "int,string:S" = {["int" := "int"; "string" := "S"]}.
Proof. by vm_compute. Qed.

Example getTypeMap_last_alias_wins :
  getTypeMap "int:A,int:B" = {["int" := "B"]}.
Proof. by vm_compute. Qed.

Example no_types_is_usage :
  main unformatted written "main" "" "Nope" "fungen_auto.go" false
    (listed_schedule ∅) = UsageExit2.
Proof. reflexivity. Qed.

Example Title_S : strings.Title "S" = "S". Proof. reflexivity. Qed.
Example Title_int : strings.Title "int" = "Int". Proof. reflexivity. Qed.
Example Split_ex : strings.Split "int,string:S" "," = ["int"; "string:S"]. Proof. reflexivity. Qed.
Example Split_empty : strings.Split "" "," = [""]. Proof. reflexivity. Qed.
Example Split_trailing : strings.Split "Map," "," = ["Map"; ""]. Proof. reflexivity. Qed.

(** * Further properties of the emitted methods *)

Module GeneratedMore.

Import Generated.
Local Open Scope list_scope.
Local Open Scope nat_scope.

Section SliceFacts.

Context {T : Type}.
Implicit Types (l : slice T) (n : Z) (f : T → bool).

Lemma slice_eta l : {| elems := elems l; spare := spare l |} = l.
Proof. by destruct l. Qed.

Lemma Take_nonneg l n :
  (0 ≤ n)%Z →
  Take l n =
    Some (if decide (n ≤ len l)%Z
          then {| elems := take (Z.to_nat n) (elems l);
                  spare := drop (Z.to_nat n) (elems l) ++ spare l |}
          else l).
Proof.
  intros Hn. unfold Take. case_decide as Hle.
  - rewrite GeneratedFacts.guard_true by done.
    by rewrite GeneratedFacts.slice_to_in_range by lia.
  - by destruct (Z.geb_spec (len l) n); [lia|].
Qed.

Lemma Drop_nonneg l n :
  (0 ≤ n)%Z →
  Drop l n =
    Some (if decide (n ≤ len l)%Z
          then {| elems := drop (Z.to_nat n) (elems l); spare := spare l |}
          else nil_slice).
Proof.
  intros Hn. unfold Drop. case_decide as Hle.
  - rewrite GeneratedFacts.guard_true by done.
    by rewrite GeneratedFacts.slice_from_in_range by lia.
  - by destruct (Z.geb_spec (len l) n); [lia|].
Qed.

(** X1: for every [n >= 0], [Take] and [Drop] cut the list in two: the
    elements [Take(n)] returns followed by those [Drop(n)] returns are the
    list, and [Take(n)] returns [min n (len l)] elements. *)
Theorem Take_Drop_partition l n :
  (0 ≤ n)%Z →
  ∃ t d, Take l n = Some t ∧ Drop l n = Some d ∧
    elems t ++ elems d = elems l ∧
    len t = Z.min n (len l) ∧
    len d = (len l - Z.min n (len l))%Z.
Proof.
  intros Hn. rewrite Take_nonneg, Drop_nonneg by done.
  do 2 eexists. split; [done|]. split; [done|].
  pose proof (GeneratedFacts.len_nonneg l) as Hlen.
  case_decide as Hle; unfold len in *; simpl.
  - rewrite take_drop, length_take, length_drop. repeat split; lia.
  - rewrite app_nil_r. repeat split; lia.
Qed.

(** X2: [Take] and [Drop] do not copy.  For [0 <= n <= len l] the slice
    [Take(n)] returns keeps the capacity of the list, with the elements it
    leaves out as the first of its spare storage, and the slice [Drop(n)]
    returns keeps the list's spare storage. *)
Theorem Take_Drop_share_storage l n :
  (0 ≤ n ≤ len l)%Z →
  ∃ t d, Take l n = Some t ∧ Drop l n = Some d ∧
    cap t = cap l ∧
    spare t = elems d ++ spare l ∧
    spare d = spare l ∧
    cap d = (cap l - n)%Z.
Proof.
  intros [Hn Hle]. rewrite Take_nonneg, Drop_nonneg by done.
  rewrite !decide_True by done. do 2 eexists. split; [done|]. split; [done|].
  unfold cap, len in *. simpl.
  rewrite length_take, length_app, !length_drop. repeat split; lia.
Qed.

Lemma TakeWhile_cut l f :
  TakeWhile l f =
    match firstFailing f (elems l) with
    | Some i => slice_to l (Z.of_nat i)
    | None => Some l
    end.
Proof. apply (GeneratedFacts.TakeWhile_loop_spec f l [] (elems l)). Qed.

Lemma DropWhile_cut l f :
  DropWhile l f =
    match firstFailing f (elems l) with
    | Some i => slice_from l (Z.of_nat i)
    | None => Some nil_slice
    end.
Proof. apply (GeneratedFacts.DropWhile_loop_spec f l [] (elems l)). Qed.

(** X3: when the predicate holds for every element, [TakeWhile] returns
    the list and [DropWhile] the empty list, as [Take] and [Drop] do at
    [len l]; when it fails for the first element, or the list is empty,
    [TakeWhile] returns no elements and [DropWhile] all of them, as [Take]
    and [Drop] do at [0]. *)
Theorem TakeWhile_DropWhile_extremes l f :
  ((∀ t, t ∈ elems l → f t = true) →
     TakeWhile l f = Some l ∧ DropWhile l f = Some nil_slice ∧
     TakeWhile l f = Take l (len l) ∧
     elems <$> DropWhile l f = elems <$> Drop l (len l)) ∧
  ((∀ t, head (elems l) = Some t → f t = false) →
     elems <$> TakeWhile l f = Some [] ∧
     elems <$> DropWhile l f = Some (elems l) ∧
     TakeWhile l f = Take l 0 ∧
     elems <$> DropWhile l f = elems <$> Drop l 0).
Proof.
  pose proof (GeneratedFacts.len_nonneg l) as Hlen.
  rewrite TakeWhile_cut, DropWhile_cut. split; intros Hf.
  - destruct (firstFailing f (elems l)) as [i|] eqn:Hi.
    { destruct (GeneratedFacts.firstFailing_Some _ _ _ Hi) as (_ & (t & Ht & Hft) & _).
      rewrite Hf in Hft; [done|]. by eapply list_elem_of_lookup_2. }
    rewrite Take_nonneg, Drop_nonneg, !decide_True by lia. unfold len. simpl.
    rewrite Nat2Z.id, take_ge, !drop_ge by lia. simpl.
    by rewrite slice_eta.
  - rewrite Take_nonneg, Drop_nonneg, !decide_True by lia. simpl.
    destruct (firstFailing f (elems l)) as [i|] eqn:Hi.
    + destruct (GeneratedFacts.firstFailing_Some _ _ _ Hi) as (Hlt & _ & Hbefore).
      assert (i = 0) as ->.
      { destruct i as [|i]; [done|].
        destruct (elems l) as [|t0 ts] eqn:Hl; [done|].
        specialize (Hbefore 0 t0 ltac:(lia) eq_refl).
        by rewrite (Hf t0 eq_refl) in Hbefore. }
      rewrite GeneratedFacts.slice_to_in_range by (unfold len; lia).
      by rewrite GeneratedFacts.slice_from_in_range by (unfold len; lia).
    + pose proof (GeneratedFacts.firstFailing_None _ _ Hi) as Hall.
      destruct (elems l) as [|t0 ts] eqn:Hl.
      * destruct l as [es sp]. simpl in *. by subst.
      * specialize (Hf t0 eq_refl). rewrite Hall in Hf; [done | by left].
Qed.

(** X5: [ReduceRight] is [Reduce] on the reversed list with the arguments
    of the function exchanged. *)
Theorem ReduceRight_is_Reduce_reversed l (seed : T) (g : T → T → T) :
  ReduceRight l seed g =
    Some (Reduce (of_list (rev (elems l))) seed (fun acc t => g t acc)).
Proof.
  unfold ReduceRight, Reduce.
  rewrite GeneratedFacts.ReduceRight_loop_fold_right, GeneratedFacts.Reduce_loop_fold_left
    by done.
  rewrite take_ge by done. simpl. f_equal.
  rewrite <- (rev_involutive (elems l)) at 1.
  by rewrite fold_left_rev_right.
Qed.

End SliceFacts.


Section SelectorFacts.

Context {T : Type}.
Implicit Types (l : slice T) (f : T → bool).

Lemma Filter_loop_filter f (rest l2 : list T) :
  Filter_loop f rest l2 = l2 ++ List.filter f rest.
Proof.
  revert l2. induction rest as [|t rest IH]; intros l2; simpl.
  - by rewrite app_nil_r.
  - rewrite IH. destruct (f t); [|done]. by rewrite <- app_assoc.
Qed.

Lemma filter_all_true f (xs : list T) :
  (∀ t, t ∈ xs → f t = true) → List.filter f xs = xs.
Proof.
  induction xs as [|x xs IH]; intros H; simpl; [done|].
  rewrite (H x) by left. f_equal. apply IH. intros t Ht. apply H. by right.
Qed.

Lemma filter_all_false f (xs : list T) :
  (∀ t, t ∈ xs → f t = false) → List.filter f xs = [].
Proof.
  induction xs as [|x xs IH]; intros H; simpl; [done|].
  rewrite (H x) by left. apply IH. intros t Ht. apply H. by right.
Qed.

Lemma elem_of_filter f (xs : list T) t :
  t ∈ List.filter f xs ↔ t ∈ xs ∧ f t = true.
Proof. by rewrite !list_elem_of_In, filter_In. Qed.

Lemma sublist_filter f (xs : list T) : sublist (List.filter f xs) xs.
Proof.
  induction xs as [|x xs IH]; simpl; [constructor|].
  destruct (f x); by constructor.
Qed.

Lemma filter_partition f (xs : list T) :
  List.filter f xs ++ List.filter (fun t => negb (f t)) xs ≡ₚ xs.
Proof.
  induction xs as [|x xs IH]; simpl; [done|]. destruct (f x); simpl.
  - by rewrite IH.
  - by rewrite <- Permutation_middle, IH.
Qed.

Lemma filter_Permutation f (xs ys : list T) :
  xs ≡ₚ ys → List.filter f xs ≡ₚ List.filter f ys.
Proof.
  induction 1 as [|x xs ys _ IH|x y xs|xs ys zs _ IH1 _ IH2]; simpl.
  - done.
  - destruct (f x); by rewrite IH.
  - destruct (f x), (f y); try done. apply perm_swap.
  - by rewrite IH1.
Qed.

(** X6: [Filter] returns the elements for which the function returns
    true, in the order of the list, and nothing else; filtering its result
    again with the same function changes nothing. *)
Theorem Filter_keeps_matching l f :
  Filter l f = List.filter f (elems l) ∧
  sublist (Filter l f) (elems l) ∧
  (∀ t, t ∈ Filter l f ↔ t ∈ elems l ∧ f t = true) ∧
  Filter (of_list (Filter l f)) f = Filter l f.
Proof.
  assert (Filter l f = List.filter f (elems l)) as Heq
    by apply (Filter_loop_filter f (elems l) []).
  split; [done|]. rewrite Heq. split; [apply sublist_filter|].
  split; [apply elem_of_filter|].
  unfold Filter. simpl. rewrite Filter_loop_filter. simpl.
  apply filter_all_true. by intros t [_ Ht]%elem_of_filter.
Qed.

(** X7: whatever the order in which the goroutines of [PFilter] come to
    the mutex, the result holds the elements [Filter] returns, each as
    often; when they come in the order of the list the result is that of
    [Filter]; and every arrangement of these elements is the result of
    some order. *)
Theorem PFilter_any_order l f :
  (∀ order, order ≡ₚ elems l → PFilter l f order ≡ₚ Filter l f) ∧
  PFilter l f (elems l) = Filter l f ∧
  (∀ result, result ≡ₚ Filter l f →
     ∃ order, order ≡ₚ elems l ∧ PFilter l f order = result).
Proof.
  unfold PFilter, Filter. rewrite !Filter_loop_filter. simpl.
  split; [|split; [done|]].
  - intros order Horder. rewrite Filter_loop_filter. simpl.
    by apply filter_Permutation.
  - intros result Hresult.
    exists (result ++ List.filter (fun t => negb (f t)) (elems l)). split.
    + rewrite Hresult. apply filter_partition.
    + rewrite Filter_loop_filter. simpl. rewrite List.filter_app.
      rewrite filter_all_true, filter_all_false.
      * by rewrite app_nil_r.
      * intros t [_ Ht]%elem_of_filter. by destruct (f t).
      * intros t Ht. rewrite Hresult in Ht. by apply elem_of_filter in Ht as [_ ?].
Qed.

Lemma All_loop_result f (xs : list T) :
  (All_loop f xs).1 = forallb f xs.
Proof.
  induction xs as [|x xs IH]; simpl; [done|].
  destruct (f x); simpl; [|done]. by destruct (All_loop f xs).
Qed.

Lemma Any_loop_result f (xs : list T) :
  (Any_loop f xs).1 = existsb f xs.
Proof.
  induction xs as [|x xs IH]; simpl; [done|].
  destruct (f x); simpl; [done|]. by destruct (Any_loop f xs).
Qed.

(** X8: [All] returns true exactly when the function returns true for
    every element, so for the empty list; [Any] returns true exactly when
    it returns true for some element; and [Any] of a function is the
    negation of [All] of its negation. *)
Theorem All_Any_meaning l f :
  (All l f = true ↔ ∀ t, t ∈ elems l → f t = true) ∧
  (Any l f = true ↔ ∃ t, t ∈ elems l ∧ f t = true) ∧
  Any l f = negb (All l (fun t => negb (f t))).
Proof.
  unfold All, Any. rewrite !All_loop_result, Any_loop_result.
  split; [|split].
  - rewrite forallb_forall. by setoid_rewrite list_elem_of_In.
  - rewrite existsb_exists. by setoid_rewrite list_elem_of_In.
  - induction (elems l) as [|x xs IH]; simpl; [done|].
    rewrite IH. by destruct (f x).
Qed.

(** X9: [All] and [Any] stop at the first element that decides the
    result: [All] calls the function on the elements up to and with the
    first for which it returns false, [Any] up to and with the first for
    which it returns true, and on every element when there is none. *)
Theorem All_Any_short_circuit l f :
  All_calls l f =
    match firstFailing f (elems l) with
    | Some i => take (S i) (elems l)
    | None => elems l
    end ∧
  Any_calls l f =
    match firstFailing (fun t => negb (f t)) (elems l) with
    | Some i => take (S i) (elems l)
    | None => elems l
    end.
Proof.
  unfold All_calls, Any_calls. split.
  - induction (elems l) as [|x xs IH]; simpl; [done|].
    destruct (f x); simpl; [|done].
    destruct (All_loop f xs) as [b calls]. simpl in *. rewrite IH.
    by destruct (firstFailing f xs).
  - induction (elems l) as [|x xs IH]; simpl; [done|].
    destruct (f x); simpl; [done|].
    destruct (Any_loop f xs) as [b calls]. simpl in *. rewrite IH.
    by destruct (firstFailing _ xs).
Qed.

(** X4: the elements [TakeWhile] returns all satisfy the predicate, the
    first element [DropWhile] returns does not, and applying either method
    to its own result returns the same elements. *)
Theorem TakeWhile_DropWhile_idempotent l f :
  ∃ tw dw,
    TakeWhile l f = Some tw ∧ DropWhile l f = Some dw ∧
    All tw f = true ∧
    (∀ t, head (elems dw) = Some t → f t = false) ∧
    elems <$> TakeWhile tw f = Some (elems tw) ∧
    elems <$> DropWhile dw f = Some (elems dw).
Proof.
  rewrite TakeWhile_cut, DropWhile_cut.
  destruct (firstFailing f (elems l)) as [i|] eqn:Hi.
  - destruct (GeneratedFacts.firstFailing_Some _ _ _ Hi) as (Hlt & (x & Hx & Hfx) & Hbefore).
    rewrite GeneratedFacts.slice_to_in_range, GeneratedFacts.slice_from_in_range
      by (unfold len; lia).
    rewrite Nat2Z.id. do 2 eexists. split; [done|]. split; [done|].
    assert (∀ t, t ∈ take i (elems l) → f t = true) as Hpre.
    { intros t (j & Ht)%list_elem_of_lookup_1.
      apply lookup_take_Some in Ht as [Ht Hj]. by eapply Hbefore. }
    assert (head (drop i (elems l)) = Some x) as Hhead
      by (by rewrite head_lookup, lookup_drop, Nat.add_0_r).
    split; [|split; [|split]].
    + unfold All. rewrite All_loop_result. simpl.
      apply forallb_forall. intros t Ht%list_elem_of_In. by apply Hpre.
    + simpl. rewrite Hhead. by intros t [= <-].
    + rewrite TakeWhile_cut. simpl.
      destruct (firstFailing f (take i (elems l))) as [k|] eqn:Hk; [|done].
      destruct (GeneratedFacts.firstFailing_Some _ _ _ Hk) as (_ & (y & Hy & Hfy) & _).
      rewrite Hpre in Hfy; [done|]. by eapply list_elem_of_lookup_2.
    + rewrite DropWhile_cut. simpl.
      destruct (drop i (elems l)) as [|y ys] eqn:Hd; [done|].
      simpl in *. simplify_eq. rewrite Hfx. simpl.
      unfold slice_from, len. simpl. done.
  - pose proof (GeneratedFacts.firstFailing_None _ _ Hi) as Hall.
    exists l, nil_slice. split; [done|]. split; [done|].
    split; [|split; [done|split; [|done]]].
    + unfold All. rewrite All_loop_result. apply forallb_forall.
      intros t Ht%list_elem_of_In. by apply Hall.
    + by rewrite TakeWhile_cut, Hi.
Qed.

End SelectorFacts.


Section TransformerLoops.

Context {T T2 : Type}.
Variable zero : T2.
Implicit Types (f : T → T2).

Lemma store_in_range (l2 : list T2) i x :
  i < length l2 → store l2 i x = Some (<[i := x]> l2).
Proof. intros H. unfold store. by rewrite decide_True. Qed.

(** The loop of [Map] fills the places from [i] on. *)
Lemma Map_loop_fills f (done_ rest : list T) (tail : list T2) :
  length tail = length rest →
  Map_loop f (length done_) rest ((f <$> done_) ++ tail)
    = Some (f <$> (done_ ++ rest)).
Proof.
  revert done_ tail. induction rest as [|t rest IH]; intros done_ tail Hlen.
  - destruct tail; [|done]. by rewrite !app_nil_r.
  - destruct tail as [|z tail]; [done|]. simpl in Hlen. simpl Map_loop.
    rewrite store_in_range
      by (rewrite length_app, length_fmap; simpl; lia).
    replace (length done_) with (length (f <$> done_) + 0)
      by (rewrite length_fmap; lia).
    rewrite insert_app_r. simpl.
    replace (S (length (f <$> done_) + 0)) with (length (done_ ++ [t]))
      by (rewrite length_app, length_fmap; simpl; lia).
    replace ((f <$> done_) ++ f t :: tail) with ((f <$> (done_ ++ [t])) ++ tail)
      by (by rewrite fmap_app, <- app_assoc).
    rewrite IH by lia. by rewrite <- app_assoc.
Qed.

Lemma Map_loop_spec f (xs : list T) :
  Map_loop f 0 xs (make zero (length xs)) = Some (f <$> xs).
Proof.
  apply (Map_loop_fills f [] xs (make zero (length xs))).
  unfold make. by rewrite length_replicate.
Qed.

(** Stores at different places can be exchanged. *)
Lemma store_store (l2 : list T2) i j x y :
  i ≠ j →
  (store l2 i x ≫= fun r => store r j y)
    = (store l2 j y ≫= fun r => store r i x).
Proof.
  intros Hij. unfold store.
  destruct (decide (i < length l2)), (decide (j < length l2)); simpl;
    rewrite ?length_insert, ?decide_True, ?decide_False by done; try done.
  by rewrite list_insert_insert_ne.
Qed.

Lemma PMap_run_Permutation f (o1 o2 : list (nat * T)) :
  o1 ≡ₚ o2 → NoDup o1.*1 →
  ∀ l2, PMap_run f o1 l2 = PMap_run f o2 l2.
Proof.
  induction 1 as [|[i t] o1 o2 Hperm IH|[i t] [j u] o|o1 o2 o3 H12 IH1 H23 IH2];
    intros Hnodup l2.
  - done.
  - simpl. apply NoDup_cons in Hnodup as [_ Hnodup].
    destruct (store l2 i (f t)); [by apply IH | done].
  - simpl in *. apply NoDup_cons in Hnodup as [Hij _].
    assert (j ≠ i) as Hne by (intros ->; apply Hij; left).
    pose proof (store_store l2 j i (f u) (f t) Hne) as Hswap.
    destruct (store l2 j (f u)) as [l2j|], (store l2 i (f t)) as [l2i|];
      simpl in Hswap; try done.
    + by rewrite Hswap.
    + by rewrite Hswap.
    + by rewrite <- Hswap.
  - rewrite IH1 by done. apply IH2. by rewrite <- H12.
Qed.

Lemma PMap_run_tasks f (xs : list T) i (l2 : list T2) :
  PMap_run f (imap (fun j t => (i + j, t)) xs) l2 = Map_loop f i xs l2.
Proof.
  revert i l2. induction xs as [|t xs IH]; intros i l2; [done|].
  rewrite imap_cons. simpl. rewrite Nat.add_0_r.
  destruct (store l2 i (f t)) as [l2'|]; [|done].
  rewrite <- IH. f_equal. apply imap_ext. intros j u _. simpl. f_equal. lia.
Qed.

Lemma tasks_indices (xs : list T) i :
  (imap (fun j t => (i + j, t)) xs).*1 = seq i (length xs).
Proof.
  revert i. induction xs as [|t xs IH]; intros i; [done|].
  rewrite imap_cons. simpl. rewrite Nat.add_0_r. f_equal.
  rewrite <- IH. f_equal. apply imap_ext. intros j u _. simpl. f_equal. lia.
Qed.

Lemma Map_spec (l : slice T) f : Map zero l f = Some (of_list (f <$> elems l)).
Proof. unfold Map. by rewrite Map_loop_spec. Qed.

End TransformerLoops.

Section TransformerFacts.

Context {T T2 T3 : Type}.
Variables (zero : T2) (zero3 : T3).

(** X10: [Map] never panics and returns the list of the values of the
    function on the elements, in their order, with as many elements as the
    list and no spare capacity; mapping the result with a second function
    is mapping the list with the composition. *)
Theorem Map_pointwise (l : slice T) (f : T → T2) (g : T2 → T3) :
  Map zero l f = Some (of_list (f <$> elems l)) ∧
  (Map zero l f ≫= fun r => Map zero3 r g) = Map zero3 l (fun t => g (f t)).
Proof.
  split; [apply Map_spec|]. rewrite !Map_spec. simpl. rewrite Map_spec. simpl.
  by rewrite <- list_fmap_compose.
Qed.

(** X11: [PMap] returns what [Map] returns, whatever the order in which
    its goroutines run: each stores at its own index. *)
Theorem PMap_any_order (l : slice T) (f : T → T2) (order : list (nat * T)) :
  order ≡ₚ PMap_tasks l →
  PMap zero l f order = Map zero l f.
Proof.
  intros Horder. unfold PMap, Map. f_equal.
  rewrite (PMap_run_Permutation f order (PMap_tasks l) Horder).
  - apply (PMap_run_tasks f (elems l) 0).
  - rewrite Horder.
    change (PMap_tasks l) with (imap (fun j t => (0 + j, t)) (elems l)).
    rewrite tasks_indices. apply NoDup_seq.
Qed.

End TransformerFacts.

Section VisitorFacts.

Context {T St : Type}.

Lemma EachI_loop_indices (f : Z → T → St → St) (xs : list T) (i : nat) (s : St) :
  EachI_loop f (Z.of_nat i) xs s =
    foldl (fun s it => f (Z.of_nat it.1) it.2 s) s (imap (fun j t => (i + j, t)) xs).
Proof.
  revert i s. induction xs as [|t xs IH]; intros i s; [done|].
  rewrite imap_cons. simpl. rewrite Nat.add_0_r.
  replace (Z.of_nat i + 1)%Z with (Z.of_nat (S i)) by lia. rewrite IH.
  f_equal. apply imap_ext. intros j u _. simpl. f_equal. lia.
Qed.

(** X12: [EachI] returns the list it is called on and calls the function
    once for every element, from the first to the last, with the position
    of the element counted from [0]; [Each] is [EachI] for a function that
    does not use the position. *)
Theorem EachI_in_order (l : slice T) (f : Z → T → St → St) (g : T → St → St) (s : St) :
  (EachI l f s).1 = l ∧
  (EachI l f s).2 =
    foldl (fun s it => f (Z.of_nat it.1) it.2 s) s
      (imap (fun i t => (i, t)) (elems l)) ∧
  Each l g s = EachI l (fun _ => g) s.
Proof.
  split; [done|]. split.
  - apply (EachI_loop_indices f (elems l) 0 s).
  - unfold Each, EachI. f_equal. generalize 0%Z as i. revert s.
    induction (elems l) as [|t xs IH]; intros s i; simpl; [done|]. apply IH.
Qed.

End VisitorFacts.


Lemma Take_Drop_partition_witness :
  ∃ t d, Take l123 2 = Some t ∧ Drop l123 2 = Some d ∧
    elems t ++ elems d = elems l123 ∧
    len t = Z.min 2 (len l123) ∧
    len d = (len l123 - Z.min 2 (len l123))%Z.
Proof. apply (Take_Drop_partition l123 2). lia. Defined.

Lemma Take_Drop_share_storage_witness :
  ∃ t d, Take l123 2 = Some t ∧ Drop l123 2 = Some d ∧
    cap t = cap l123 ∧
    spare t = elems d ++ spare l123 ∧
    spare d = spare l123 ∧
    cap d = (cap l123 - 2)%Z.
Proof. apply (Take_Drop_share_storage l123 2). unfold len. simpl. lia. Defined.

Lemma TakeWhile_DropWhile_extremes_witness :
  TakeWhile l123 (fun _ => true) = Some l123 ∧
  DropWhile l123 (fun _ => true) = Some nil_slice ∧
  TakeWhile l123 (fun _ => true) = Take l123 (len l123) ∧
  elems <$> DropWhile l123 (fun _ => true) = elems <$> Drop l123 (len l123).
Proof. apply (proj1 (TakeWhile_DropWhile_extremes l123 (fun _ => true))). done. Defined.

Lemma PFilter_any_order_witness :
  PFilter l123 (fun x => 1 <? x)%Z [2; 1; 3]%Z ≡ₚ Filter l123 (fun x => 1 <? x)%Z.
Proof.
  apply (proj1 (PFilter_any_order l123 (fun x => 1 <? x)%Z)). apply perm_swap.
Defined.

Lemma PMap_any_order_witness :
  PMap 0%Z l123 (fun x => x * x)%Z [(1, 2%Z); (0, 1%Z); (2, 3%Z)]
    = Map 0%Z l123 (fun x => x * x)%Z.
Proof. apply PMap_any_order. apply perm_swap. Defined.

Example PFilter_orders_differ :
  PFilter l123 (fun x => 1 <? x)%Z [3; 2; 1]%Z = [3; 2]%Z ∧
  Filter l123 (fun x => 1 <? x)%Z = [2; 3]%Z.
Proof. done. Qed.

Example Map_squares :
  Map 0%Z l123 (fun x => x * x)%Z = Some (of_list [1; 4; 9]%Z).
Proof. done. Qed.

End GeneratedMore.

(** * Further properties of the generator *)

Section TypeMapMore.

Local Open Scope list_scope.

Lemma bind_type_insert (m : gmap string string) (t : string) :
  bind_type m t = <[canonicalOf t := aliasOf t]> m.
Proof.
  unfold bind_type, canonicalOf, aliasOf.
  pose proof (Split_nonempty t ":") as Hne.
  by destruct (strings.Split t ":") as [|t0 [|t1 ts]].
Qed.

Lemma entriesFor_snoc (k : string) (ts : list string) (t : string) :
  entriesFor k (ts ++ [t]) =
    entriesFor k ts ++ (if String.eqb (canonicalOf t) k then [t] else []).
Proof. unfold entriesFor. by rewrite List.filter_app. Qed.

Lemma foldl_bind_type_lookup (ts : list string) (m : gmap string string) (k : string) :
  foldl bind_type m ts !! k =
    match last (entriesFor k ts) with
    | Some t => Some (aliasOf t)
    | None => m !! k
    end.
Proof.
  induction ts as [|t ts IH] using rev_ind; [done|].
  rewrite foldl_snoc, bind_type_insert, entriesFor_snoc.
  destruct (String.eqb (canonicalOf t) k) eqn:Hk.
  - apply String.eqb_eq in Hk as ->. by rewrite lookup_insert_eq, last_snoc.
  - apply String.eqb_neq in Hk. rewrite lookup_insert_ne by done.
    by rewrite app_nil_r.
Qed.

Lemma length_remove_dups_le (xs : list string) :
  (length (remove_dups xs) ≤ length xs)%nat.
Proof.
  induction xs as [|x xs IH]; simpl; [done|].
  destruct (decide_rel elem_of x xs); simpl; lia.
Qed.

End TypeMapMore.

(** X13: in the map [getTypeMap] builds from a type specification that is
    not empty, a type name is bound to the alias of the last entry that
    names it (to itself when that entry gives no alias), and is not bound
    when no entry names it. *)
Theorem getTypeMap_last_entry_wins (targets k : string) :
  targets ≠ "" →
  getTypeMap targets !! k
    = aliasOf <$> last (entriesFor k (strings.Split targets ",")).
Proof.
  intros Hne%string_eqb_false. unfold getTypeMap. rewrite Hne.
  rewrite foldl_bind_type_lookup, lookup_empty.
  by destruct (last _).
Qed.

Lemma getTypeMap_last_entry_wins_witness :
  getTypeMap "int:A,string,int:B" !! "int"
    = aliasOf <$> last (entriesFor "int" (strings.Split "int:A,string,int:B" ",")).
Proof. apply getTypeMap_last_entry_wins. discriminate. Defined.

(** X14: the keys of the map [getTypeMap] builds from a type specification
    that is not empty are the first parts of its entries; the map is not
    empty and has at most as many keys as the specification has entries. *)
Theorem getTypeMap_keys (targets : string) :
  targets ≠ "" →
  (∀ k, is_Some (getTypeMap targets !! k) ↔ k ∈ canonicalNames targets) ∧
  getTypeMap targets ≠ ∅ ∧
  (1 ≤ size (getTypeMap targets) ≤ length (strings.Split targets ","))%nat.
Proof.
  intros Hne.
  assert (∀ k, is_Some (getTypeMap targets !! k) ↔ k ∈ canonicalNames targets) as Hkeys.
  { intros k. rewrite <- elem_of_dom, (getTypeMap_dom _ Hne).
    apply elem_of_list_to_set. }
  assert (size (getTypeMap targets) ≠ 0)%nat as Hsize.
  { intros Hempty%map_size_empty_iff.
    pose proof (Split_nonempty targets ",") as Hsplit.
    destruct (strings.Split targets ",") as [|t ts] eqn:Hs; [done|].
    destruct (proj2 (Hkeys (canonicalOf t))) as [v Hv].
    - unfold canonicalNames. rewrite Hs. by left.
    - by rewrite Hempty, lookup_empty in Hv. }
  split; [done|]. split.
  - intros Hempty. apply Hsize. by rewrite Hempty, map_size_empty.
  - split; [lia|]. rewrite (getTypeMap_size _ Hne).
    etrans; [apply length_remove_dups_le|].
    unfold canonicalNames. by rewrite length_fmap.
Qed.

Lemma getTypeMap_keys_witness :
  getTypeMap "int:A,string,int:B" ≠ ∅ ∧
  (1 ≤ size (getTypeMap "int:A,string,int:B")
     ≤ length (strings.Split "int:A,string,int:B" ","))%nat.
Proof. apply (getTypeMap_keys "int:A,string,int:B"). discriminate. Defined.

Section SelectionMore.

Local Open Scope list_scope.

Lemma foldl_insert_true_lookup (names : list string) (result : gmap string bool)
    (n : string) :
  foldl (fun r m => <[m := true]> r) result names !! n
    = if decide (n ∈ names) then Some true else result !! n.
Proof.
  revert result. induction names as [|m names IH]; intros result; [done|].
  cbn [foldl]. rewrite IH. destruct (decide (n ∈ names)) as [Hin|Hin].
  - by rewrite decide_True by (by right).
  - destruct (decide (n = m)) as [->|Hne].
    + by rewrite lookup_insert_eq, decide_True by left.
    + rewrite lookup_insert_ne by done.
      rewrite decide_False; [done|]. by intros [?|?]%elem_of_cons.
Qed.

(** The loop of [getMethodsMap] returns a map exactly when every name is
    valid, and then the map to which it has added the names. *)
Lemma selectMethods_Ok (validMethods result methodsMap : gmap string bool)
    (names : list string) :
  selectMethods validMethods result names = Ok methodsMap ↔
  Forall (fun n => is_Some (validMethods !! n)) names ∧
  methodsMap = foldl (fun r m => <[m := true]> r) result names.
Proof.
  revert result. induction names as [|m names IH]; intros result; simpl.
  - split; [by intros [= <-] | by intros [_ ->]].
  - destruct (validMethods !! m) as [b|] eqn:Hm.
    + rewrite IH, Forall_cons, Hm. split.
      * intros [? ?]. split; [split; [by eexists | done] | done].
      * by intros [[_ ?] ?].
    + split; [done|]. intros [[[] ?]%Forall_cons _]. rewrite Hm in *. done.
Qed.

Lemma is_Some_validMethods (n : string) :
  is_Some (GeneratorList.Each generators
             (fun gen (validMethods : gmap string bool) =>
                <[name gen := true]> validMethods) ∅ !! n)
  ↔ n ∈ registryNames.
Proof.
  rewrite validMethods_lookup. destruct (decide (n ∈ registryNames)); [|by split; [intros []|]].
  split; [done | by eexists].
Qed.

(** [getMethodsMap] on a specification that is not empty. *)
Lemma getMethodsMap_Ok (methodsStr : string) (methodsMap : gmap string bool) :
  methodsStr ≠ "" →
  getMethodsMap methodsStr = Ok methodsMap ↔
  Forall (fun n => n ∈ registryNames) (strings.Split methodsStr ",") ∧
  ∀ n, methodsMap !! n
       = if decide (n ∈ strings.Split methodsStr ",") then Some true else None.
Proof.
  intros Hne%string_eqb_false. unfold getMethodsMap. rewrite Hne.
  rewrite selectMethods_Ok. split.
  - intros [Hvalid ->]. split.
    + eapply Forall_impl; [apply Hvalid|]. intros n. apply is_Some_validMethods.
    + intros n. by rewrite foldl_insert_true_lookup, lookup_empty.
  - intros [Hvalid Hlookup]. split.
    + eapply Forall_impl; [apply Hvalid|]. intros n. apply is_Some_validMethods.
    + apply map_eq. intros n.
      by rewrite Hlookup, foldl_insert_true_lookup, lookup_empty.
Qed.

End SelectionMore.

(** X15: [getMethodsMap] accepts a methods specification that is not
    empty exactly when every name in it is in the registry, and the
    selection then holds these names and no other, each with the value
    true. *)
Theorem getMethodsMap_accepts (methodsStr : string) :
  methodsStr ≠ "" →
  ((∃ methodsMap, getMethodsMap methodsStr = Ok methodsMap) ↔
     Forall (fun n => n ∈ registryNames) (strings.Split methodsStr ",")) ∧
  (∀ methodsMap, getMethodsMap methodsStr = Ok methodsMap →
     ∀ n, methodsMap !! n
          = if decide (n ∈ strings.Split methodsStr ",") then Some true else None).
Proof.
  intros Hne. split.
  - split.
    + intros [methodsMap Hok]. by apply (getMethodsMap_Ok _ _ Hne) in Hok as [? _].
    + intros Hvalid.
      exists (foldl (fun r m => <[m := true]> r) ∅ (strings.Split methodsStr ",")).
      apply (getMethodsMap_Ok _ _ Hne). split; [done|]. intros n.
      by rewrite foldl_insert_true_lookup, lookup_empty.
  - intros methodsMap Hok. by apply (getMethodsMap_Ok _ _ Hne) in Hok as [_ ?].
Qed.

Lemma getMethodsMap_accepts_witness :
  (∃ methodsMap, getMethodsMap "Take,Map,Take" = Ok methodsMap) ↔
  Forall (fun n => n ∈ registryNames) (strings.Split "Take,Map,Take" ",").
Proof. apply (getMethodsMap_accepts "Take,Map,Take"). discriminate. Defined.

(** X16: the order and the repetition of the names in the methods
    specification do not matter: two specifications that are not empty and
    hold the same names, all in the registry, give the same selection, and
    so the same run. *)
Theorem getMethodsMap_order_irrelevant (methods1 methods2 : string) :
  methods1 ≠ "" → methods2 ≠ "" →
  Forall (fun n => n ∈ registryNames) (strings.Split methods1 ",") →
  (∀ n, n ∈ strings.Split methods1 "," ↔ n ∈ strings.Split methods2 ",") →
  getMethodsMap methods1 = getMethodsMap methods2 ∧
  ∀ format_Source WriteFile packageName types outputName testrun s,
    main format_Source WriteFile packageName types methods1 outputName testrun s =
    main format_Source WriteFile packageName types methods2 outputName testrun s.
Proof.
  intros Hne1 Hne2 Hvalid Hsame.
  assert (getMethodsMap methods1 = getMethodsMap methods2) as Heq.
  { set (mm := foldl (fun r m => <[m := true]> r) (∅ : gmap string bool)
                 (strings.Split methods1 ",")).
    assert (getMethodsMap methods1 = Ok mm) as ->.
    { apply (getMethodsMap_Ok _ _ Hne1). split; [done|]. intros n.
      unfold mm. by rewrite foldl_insert_true_lookup, lookup_empty. }
    symmetry. apply (getMethodsMap_Ok _ _ Hne2). split.
    - apply Forall_forall. intros n Hn%Hsame. revert n Hn. by apply Forall_forall.
    - intros n. unfold mm. rewrite foldl_insert_true_lookup, lookup_empty.
      destruct (decide (n ∈ strings.Split methods1 ",")) as [Hin|Hin].
      + by rewrite decide_True by (by apply Hsame).
      + rewrite decide_False; [done|]. by intros ?%Hsame. }
  split; [done|]. intros. unfold main. by rewrite Heq.
Qed.

Lemma getMethodsMap_order_irrelevant_witness :
  getMethodsMap "Take,Map,Take" = getMethodsMap "Map,Take".
Proof.
  apply (getMethodsMap_order_irrelevant "Take,Map,Take" "Map,Take");
    [discriminate | discriminate | |].
  - repeat constructor; compute_done.
  - intros n. change (strings.Split "Take,Map,Take" ",") with ["Take"; "Map"; "Take"].
    change (strings.Split "Map,Take" ",") with ["Map"; "Take"].
    rewrite !elem_of_cons, !elem_of_nil. tauto.
Defined.

(** X17: in every selection [getMethodsMap] returns, the keys are names of
    the registry and the values are true.  So the generators [generate]
    keeps, by the presence of their name, are those [main] looks at for the
    import, by the value under their name: the import is emitted exactly
    when a generator whose methods are emitted needs it. *)
Theorem getMethodsMap_values_true (methodsStr : string) (methodsMap : gmap string bool) :
  getMethodsMap methodsStr = Ok methodsMap →
  (∀ n b, methodsMap !! n = Some b → b = true ∧ n ∈ registryNames) ∧
  selected methodsMap
    = List.filter (fun gen => default false (methodsMap !! name gen)) generators ∧
  (needImportSync methodsMap = true ↔
     ∃ gen, gen ∈ selected methodsMap ∧ needSync gen = true).
Proof.
  intros Hok.
  assert (∀ n b, methodsMap !! n = Some b → b = true ∧ n ∈ registryNames) as Hvalues.
  { destruct (String.eqb methodsStr "") eqn:Hempty.
    - unfold getMethodsMap in Hok. rewrite Hempty in Hok.
      assert (methodsMap = GeneratorList.Each generators
                (fun gen (result : gmap string bool) => <[name gen := true]> result) ∅)
        as -> by congruence.
      intros n b. rewrite Each_insert_lookup, lookup_empty. fold registryNames.
      destruct (decide (n ∈ registryNames)); [by intros [= <-] | done].
    - apply String.eqb_neq in Hempty.
      apply (getMethodsMap_Ok _ _ Hempty) in Hok as [Hvalid Hlookup].
      intros n b. rewrite Hlookup.
      destruct (decide (n ∈ strings.Split methodsStr ",")) as [Hin|]; [|done].
      intros [= <-]. split; [done|]. revert n Hin. by apply Forall_forall. }
  split; [done|]. split.
  - unfold selected. rewrite Filter_filter. apply filter_ext_in. intros gen _.
    destruct (methodsMap !! name gen) as [b|] eqn:Hgen; [|done].
    by destruct (Hvalues _ _ Hgen) as [-> _].
  - rewrite needImportSync_true. split.
    + intros (gen & Hin & Hsel & Hsync). exists gen. split; [|done].
      apply elem_of_selected. split; [done | by eexists].
    + intros (gen & [Hin [b Hb]]%elem_of_selected & Hsync). exists gen.
      destruct (Hvalues _ _ Hb) as [-> _]. done.
Qed.

Lemma getMethodsMap_values_true_witness :
  ∃ methodsMap, getMethodsMap "PMap,Take" = Ok methodsMap ∧
    (needImportSync methodsMap = true ↔
       ∃ gen, gen ∈ selected methodsMap ∧ needSync gen = true).
Proof.
  eexists. split; [reflexivity|].
  apply (getMethodsMap_values_true "PMap,Take"). reflexivity.
Defined.

(** X18: the code [generate] returns is the declaration of the list type
    followed by the texts of the selected generators, taken in the order
    of the registry whatever the selection holds; with no generator
    selected it is the declaration alone. *)
Theorem generate_registry_order (typeName listname : string)
    (range_m : string → entries) (methodsMap : gmap string bool) :
  generate typeName listname range_m methodsMap
    = typeDecl typeName listname
        ++ joined (render <$> (selected methodsMap ≫= callsOf typeName listname range_m)) ∧
  sublist (selected methodsMap) generators ∧
  (∀ gen, gen ∈ selected methodsMap ↔
          gen ∈ generators ∧ is_Some (methodsMap !! name gen)) ∧
  generate typeName listname range_m ∅ = typeDecl typeName listname.
Proof.
  split; [apply generate_expand|]. split.
  - unfold selected. rewrite Filter_filter. apply GeneratedMore.sublist_filter.
  - split; [intros gen; apply elem_of_selected|].
    rewrite generate_expand. unfold expand, selected. rewrite Filter_filter.
    assert (List.filter
              (fun gen => match (∅ : gmap string bool) !! name gen with
                          | Some _ => true | None => false end) generators = [])
      as -> by reflexivity.
    apply append_nil_r.
Qed.

Section MainMore.

Variable format_Source : string → fallible string.
Variable WriteFile : string → string → option string.

Lemma sections_formatted (order : entries) inner methodsMap (src out : string) :
  order ≠ [] →
  sections format_Source order inner methodsMap src = Ok out →
  ∃ text, format_Source text = Ok out.
Proof.
  revert src. induction order as [|[k1 v1] order IH]; intros src Hne; [done|].
  simpl. unfold f at 1.
  destruct (format_Source (src ++ generate k1 (v1 ++ "List") (inner k1) methodsMap))
    as [src'|msg] eqn:Hf; simpl; [|done].
  destruct order as [|kv order].
  - simpl. intros [= <-]. by eexists.
  - by apply IH.
Qed.

Lemma valid_schedule_nonempty (types : string) (s : Schedule) :
  types ≠ "" → valid_schedule (getTypeMap types) s → outer s ≠ [].
Proof.
  intros Hne [Houter _] Hnil. rewrite Hnil in Houter.
  apply Permutation_nil_l in Houter.
  assert (size (getTypeMap types) = 0)%nat as Hsize
    by (by rewrite <- length_map_to_list, <- Houter).
  rewrite (getTypeMap_size _ Hne) in Hsize.
  pose proof (Split_nonempty types ",") as Hsplit.
  unfold canonicalNames in Hsize.
  destruct (strings.Split types ",") as [|t ts]; [done|].
  apply length_zero_iff_nil in Hsize.
  assert (canonicalOf t ∈ remove_dups ((fun t => hd "" (strings.Split t ":")) <$> t :: ts))
    as Hin by (apply elem_of_remove_dups; left).
  rewrite Hsize in Hin. by apply elem_of_nil in Hin.
Qed.

(** X19: a text that [main] prints or writes has passed the formatter: for
    a type specification that is not empty, the text is one that
    [format.Source] returned, it goes under the output name, and it is
    printed when the test flag is set and written otherwise. *)
Theorem main_output_is_formatted (packageName types methods outputName : string)
    (testrun : bool) (s : Schedule) (filename src : string) :
  types ≠ "" →
  valid_schedule (getTypeMap types) s →
  main format_Source WriteFile packageName types methods outputName testrun s
    = Printed filename src ∨
  main format_Source WriteFile packageName types methods outputName testrun s
    = Written filename src →
  filename = outputName ∧
  (∃ text, format_Source text = Ok src) ∧
  (main format_Source WriteFile packageName types methods outputName testrun s
     = Printed filename src ↔ testrun = true).
Proof.
  intros Hne Hvalid. pose proof (valid_schedule_nonempty _ _ Hne Hvalid) as Houter.
  unfold main. destruct (String.length types =? 0)%nat; [by intros [|]|].
  destruct (getMethodsMap methods) as [methodsMap|]; [|by intros [|]].
  destruct (sections _ _ _ _ _) as [out|] eqn:Hsections; [|by intros [|]].
  apply sections_formatted in Hsections as Hformatted; [|done].
  destruct testrun.
  - intros [[= <- <-]|]; [|done]. done.
  - destruct (WriteFile outputName out); [by intros [|]|].
    intros [|[= <- <-]]; [done|]. done.
Qed.

(** X20: when [format.Source] rejects the first text it is handed (the
    header followed by the code of the first type visited), the run ends
    with the formatter's error and neither prints nor writes. *)
Theorem main_formatter_error (packageName types methods outputName : string)
    (testrun : bool) (s : Schedule) (methodsMap : gmap string bool) (text msg : string) :
  types ≠ "" →
  getMethodsMap methods = Ok methodsMap →
  firstText packageName methodsMap s = Some text →
  format_Source text = Fatal msg →
  main format_Source WriteFile packageName types methods outputName testrun s
    = FatalExit msg.
Proof.
  intros Hne Hok Hfirst Hreject. unfold main. rewrite Hok.
  destruct types; [done|]. simpl String.length. cbn [Nat.eqb].
  unfold firstText in Hfirst. destruct (outer s) as [|[k1 v1] order]; [done|].
  injection Hfirst as <-. simpl. unfold f at 1. by rewrite Hreject.
Qed.

End MainMore.

Lemma main_output_is_formatted_witness :
  ∃ src,
    main unformatted written "main" "int" "Take" "out.go" true
      (listed_schedule (getTypeMap "int")) = Printed "out.go" src ∧
    ∃ text, unformatted text = Ok src.
Proof.
  eexists. split; [by vm_compute|].
  eapply (main_output_is_formatted unformatted written "main" "int" "Take" "out.go" true
            (listed_schedule (getTypeMap "int")) "out.go").
  - discriminate.
  - split; [reflexivity | intros; reflexivity].
  - left. by vm_compute.
Defined.

(** A formatter that rejects every text. *)
Lemma main_formatter_error_witness :
  main (fun _ => Fatal "syntax error") written "main" "int" "Take" "out.go" false
    (listed_schedule (getTypeMap "int")) = FatalExit "syntax error".
Proof.
  eapply (main_formatter_error (fun _ => Fatal "syntax error") written
            "main" "int" "Take" "out.go" false).
  - discriminate.
  - reflexivity.
  - by vm_compute.
  - reflexivity.
Defined.

Section FileName.

Local Open Scope list_scope.

(** The aliases [getFileNameForTypes] appends, for the entries visited in
    the order [range_m]. *)
Lemma getFileNameForTypes_loop (t s : string) (range_m : entries) :
  foldl (fun s '(k, v) => if String.eqb t k then s else (s ++ "_" ++ v)%string) s range_m
    = (s ++ joined ((fun kv => ("_" ++ kv.2)%string)
                      <$> List.filter (fun kv => negb (String.eqb t kv.1)) range_m))%string.
Proof.
  revert s. induction range_m as [|[k v] range_m IH]; intros s; simpl.
  - by rewrite append_nil_r.
  - rewrite IH. destruct (String.eqb t k); simpl; [done|].
    by rewrite !append_assoc.
Qed.

Lemma length_append (a b : string) :
  String.length (a ++ b)%string = (String.length a + String.length b)%nat.
Proof. induction a as [|c a IH]; [done|]. rewrite append_cons. simpl. by rewrite IH. Qed.

Lemma length_joined_Permutation (xs ys : list string) :
  xs ≡ₚ ys → String.length (joined xs) = String.length (joined ys).
Proof.
  induction 1 as [|x xs ys _ IH|x y xs|xs ys zs _ IH1 _ IH2]; simpl.
  - done.
  - by rewrite !length_append, IH.
  - rewrite !length_append. lia.
  - by rewrite IH1.
Qed.

End FileName.

(** X21: [getFileNameForTypes] returns the type name followed, for every
    other type of the map in the order visited, by an underscore and the
    alias of that type; the length of the name does not depend on the
    order, and the name is the type name alone when the map is empty or
    holds this type only. *)
Theorem getFileNameForTypes_shape (t : string) (m : gmap string string)
    (range1 range2 : entries) :
  range1 ≡ₚ map_to_list m → range2 ≡ₚ map_to_list m →
  getFileNameForTypes t m range1
    = t ++ joined ((fun kv => "_" ++ kv.2)
                     <$> List.filter (fun kv => negb (String.eqb t kv.1)) range1) ∧
  String.length (getFileNameForTypes t m range1)
    = String.length (getFileNameForTypes t m range2) ∧
  ((∀ k, is_Some (m !! k) → k = t) → getFileNameForTypes t m range1 = t).
Proof.
  intros H1 H2.
  assert (∀ r, r ≡ₚ map_to_list m →
    getFileNameForTypes t m r
      = t ++ joined ((fun kv => "_" ++ kv.2)
                       <$> List.filter (fun kv => negb (String.eqb t kv.1)) r)) as Hshape.
  { intros r Hr. unfold getFileNameForTypes.
    destruct (size m =? 0)%nat eqn:Hsize; [|apply getFileNameForTypes_loop].
    apply Nat.eqb_eq in Hsize. rewrite <- length_map_to_list, <- Hr in Hsize.
    apply length_zero_iff_nil in Hsize as ->. simpl. by rewrite append_nil_r. }
  split; [by apply Hshape|]. split.
  - rewrite !Hshape, !length_append by done. f_equal.
    apply length_joined_Permutation, fmap_Permutation.
    apply GeneratedMore.filter_Permutation. by rewrite H1, H2.
  - intros Honly. rewrite Hshape by done.
    rewrite GeneratedMore.filter_all_false; [apply append_nil_r|].
    intros [k v] Hkv. rewrite H1 in Hkv. apply elem_of_map_to_list in Hkv.
    rewrite (Honly k) by (by eexists). simpl. by rewrite String.eqb_refl.
Qed.

Lemma getFileNameForTypes_shape_witness :
  String.length
    (getFileNameForTypes "int" (getTypeMap "int,string:S")
       [("int", "int"); ("string", "S")])
  = String.length
      (getFileNameForTypes "int" (getTypeMap "int,string:S")
         [("string", "S"); ("int", "int")]).
Proof.
  apply (getFileNameForTypes_shape "int" (getTypeMap "int,string:S")
           [("int", "int"); ("string", "S")] [("string", "S"); ("int", "int")]).
  - by vm_compute; apply perm_swap.
  - by vm_compute.
Defined.

(** ** The names of the emitted methods *)

Lemma receiver_append (listName methodName rest : string) :
  receiver listName methodName ++ rest
    = "func (l " ++ listName ++ ") " ++ methodName ++ "(" ++ rest.
Proof. unfold receiver. by rewrite !append_assoc. Qed.

Lemma getMapFunction_receiver (listName typeName targetType targetTypeName : string) :
  ∃ comment rest,
    getMapFunction listName typeName targetType targetTypeName =
      comment ++ receiver listName ("Map" ++ strings.Title targetTypeName) ++ rest.
Proof.
  exists (fmt.Sprintf "
        // Map%[4]s is a method on %[1]s that takes a function of type %[2]s -> %[3]s and applies it to every member of %[1]s
        "
            [listName; typeName; targetType; strings.Title targetTypeName]).
  exists (fmt.Sprintf "f func(%[2]s) %[3]s) %[5]s {
            l2 := make(%[5]s, len(l))
            for i, t := range l {
                l2[i] = f(t)
            }
            return l2
        }
        "
            [listName; typeName; targetType; strings.Title targetTypeName;
               targetListNameOf listName targetType targetTypeName]).
  unfold getMapFunction. fold (targetListNameOf listName targetType targetTypeName).
  rewrite receiver_append. unfold fmt.Sprintf. rewrite <- doPrintf_then_spec.
  vm_compute. reflexivity.
Qed.

Lemma getPMapFunction_receiver (listName typeName targetType targetTypeName : string) :
  ∃ comment rest,
    getPMapFunction listName typeName targetType targetTypeName =
      comment ++ receiver listName ("PMap" ++ strings.Title targetTypeName) ++ rest.
Proof.
  exists (fmt.Sprintf "
        // PMap%[4]s is similar to Map%[4]s except that it executes the function on each member in parallel.
        "
            [listName; typeName; targetType; strings.Title targetTypeName]).
  exists (fmt.Sprintf "f func(%[2]s) %[3]s) %[5]s {
            wg := sync.WaitGroup{}
            l2 := make(%[5]s, len(l))
            for i, t := range l {
                wg.Add(1)
                go func(i int, t %[2]s){
                    l2[i] = f(t)
                    wg.Done()
                }(i, t)
            }
            wg.Wait()
            return l2
        }
        "
            [listName; typeName; targetType; strings.Title targetTypeName;
               targetListNameOf listName targetType targetTypeName]).
  unfold getPMapFunction. fold (targetListNameOf listName targetType targetTypeName).
  rewrite receiver_append. unfold fmt.Sprintf. rewrite <- doPrintf_then_spec.
  vm_compute. reflexivity.
Qed.

Lemma getFilterFunction_receiver (listName typeName targetType targetTypeName : string) :
  ∃ comment rest,
    getFilterFunction listName typeName targetType targetTypeName =
      comment ++ receiver listName "Filter" ++ rest.
Proof.
  exists (fmt.Sprintf "
        // Filter is a method on %[1]s that takes a function of type %[2]s -> bool returns a list of type %[1]s which contains all members from the original list for which the function returned true
        "
            [listName; typeName]).
  exists (fmt.Sprintf "f func(%[2]s) bool) %[1]s {
            l2 := []%[2]s{}
            for _, t := range l {
                if f(t) {
                    l2 = append(l2, t)
                }
            }
            return l2
        }
        "
            [listName; typeName]).
  unfold getFilterFunction.
  rewrite receiver_append. unfold fmt.Sprintf. rewrite <- doPrintf_then_spec.
  vm_compute. reflexivity.
Qed.

Lemma getPFilterFunction_receiver (listName typeName targetType targetTypeName : string) :
  ∃ comment rest,
    getPFilterFunction listName typeName targetType targetTypeName =
      comment ++ receiver listName "PFilter" ++ rest.
Proof.
  exists (fmt.Sprintf "
        // PFilter is similar to the Filter method except that the filter is applied to all the elements in parallel. The order of resulting elements cannot be guaranteed. 
        "
            [listName; typeName]).
  exists (fmt.Sprintf "f func(%[2]s) bool) %[1]s {
            wg := sync.WaitGroup{}
            mutex := sync.Mutex{}
            l2 := []%[2]s{}
            for _, t := range l {
                wg.Add(1)
                go func(t %[2]s){
                    if f(t) {
                        mutex.Lock()
                        l2 = append(l2, t)
                        mutex.Unlock()
                    }            
                    wg.Done()
                }(t)
            }
            wg.Wait()
            return l2
        }
        "
            [listName; typeName]).
  unfold getPFilterFunction.
  rewrite receiver_append. unfold fmt.Sprintf. rewrite <- doPrintf_then_spec.
  vm_compute. reflexivity.
Qed.

Lemma getEachFunction_receiver (listName typeName targetType targetTypeName : string) :
  ∃ comment rest,
    getEachFunction listName typeName targetType targetTypeName =
      comment ++ receiver listName "Each" ++ rest.
Proof.
  exists (fmt.Sprintf "
        // Each is a method on %[1]s that takes a function of type %[2]s -> void and applies the function to each member of the list and then returns the original list.
        "
            [listName; typeName]).
  exists (fmt.Sprintf "f func(%[2]s)) %[1]s {
            for _, t := range l {
                f(t) 
            }
            return l
        }
        "
            [listName; typeName]).
  unfold getEachFunction.
  rewrite receiver_append. unfold fmt.Sprintf. rewrite <- doPrintf_then_spec.
  vm_compute. reflexivity.
Qed.

Lemma getEachIFunction_receiver (listName typeName targetType targetTypeName : string) :
  ∃ comment rest,
    getEachIFunction listName typeName targetType targetTypeName =
      comment ++ receiver listName "EachI" ++ rest.
Proof.
  exists (fmt.Sprintf "
        // EachI is a method on %[1]s that takes a function of type (int, %[2]s) -> void and applies the function to each member of the list and then returns the original list. The int parameter to the function is the index of the element.
        "
            [listName; typeName]).
  exists (fmt.Sprintf "f func(int, %[2]s)) %[1]s {
            for i, t := range l {
                f(i, t) 
            }
            return l
        }
        "
            [listName; typeName]).
  unfold getEachIFunction.
  rewrite receiver_append. unfold fmt.Sprintf. rewrite <- doPrintf_then_spec.
  vm_compute. reflexivity.
Qed.

Lemma getDropWhileFunction_receiver (listName typeName targetType targetTypeName : string) :
  ∃ comment rest,
    getDropWhileFunction listName typeName targetType targetTypeName =
      comment ++ receiver listName "DropWhile" ++ rest.
Proof.
  exists (fmt.Sprintf "
        // DropWhile is a method on %[1]s that takes a function of type %[2]s -> bool and returns a list of type %[1]s which excludes the first members from the original list for which the function returned true
        "
            [listName; typeName]).
  exists (fmt.Sprintf "f func(%[2]s) bool) %[1]s {
            for i, t := range l {
                if !f(t) {
                    return l[i:]
                }
            }
            var l2 %[1]s
            return l2
        }
        "
            [listName; typeName]).
  unfold getDropWhileFunction.
  rewrite receiver_append. unfold fmt.Sprintf. rewrite <- doPrintf_then_spec.
  vm_compute. reflexivity.
Qed.

Lemma getTakeWhileFunction_receiver (listName typeName targetType targetTypeName : string) :
  ∃ comment rest,
    getTakeWhileFunction listName typeName targetType targetTypeName =
      comment ++ receiver listName "TakeWhile" ++ rest.
Proof.
  exists (fmt.Sprintf "
        // TakeWhile is a method on %[1]s that takes a function of type %[2]s -> bool and returns a list of type %[1]s which includes only the first members from the original list for which the function returned true
        "
            [listName; typeName]).
  exists (fmt.Sprintf "f func(%[2]s) bool) %[1]s {
            for i, t := range l {
                if !f(t) {
                    return l[:i]
                }
            }
            return l
        }
        "
            [listName; typeName]).
  unfold getTakeWhileFunction.
  rewrite receiver_append. unfold fmt.Sprintf. rewrite <- doPrintf_then_spec.
  vm_compute. reflexivity.
Qed.

Lemma getTakeFunction_receiver (listName typeName targetType targetTypeName : string) :
  ∃ comment rest,
    getTakeFunction listName typeName targetType targetTypeName =
      comment ++ receiver listName "Take" ++ rest.
Proof.
  exists (fmt.Sprintf "
        // Take is a method on %[1]s that takes an integer n and returns the first n elements of the original list. If the list contains fewer than n elements then the entire list is returned.
        "
            [listName; typeName]).
  exists (fmt.Sprintf "n int) %[1]s {
            if len(l) >= n {
                return l[:n]
            }
            return l
        }
        "
            [listName; typeName]).
  unfold getTakeFunction.
  rewrite receiver_append. unfold fmt.Sprintf. rewrite <- doPrintf_then_spec.
  vm_compute. reflexivity.
Qed.

Lemma getDropFunction_receiver (listName typeName targetType targetTypeName : string) :
  ∃ comment rest,
    getDropFunction listName typeName targetType targetTypeName =
      comment ++ receiver listName "Drop" ++ rest.
Proof.
  exists (fmt.Sprintf "
        // Drop is a method on %[1]s that takes an integer n and returns all but the first n elements of the original list. If the list contains fewer than n elements then an empty list is returned.
        "
            [listName; typeName]).
  exists (fmt.Sprintf "n int) %[1]s {
            if len(l) >= n {
                return l[n:]
            }
            var l2 %[1]s
            return l2
        }
        "
            [listName; typeName]).
  unfold getDropFunction.
  rewrite receiver_append. unfold fmt.Sprintf. rewrite <- doPrintf_then_spec.
  vm_compute. reflexivity.
Qed.

Lemma getReduceFunction_receiver (listName typeName targetType targetTypeName : string) :
  ∃ comment rest,
    getReduceFunction listName typeName targetType targetTypeName =
      comment ++ receiver listName "Reduce" ++ rest.
Proof.
  exists (fmt.Sprintf "
        // Reduce is a method on %[1]s that takes a function of type (%[2]s, %[2]s) -> %[2]s and returns a %[2]s which is the result of applying the function to all members of the original list starting from the first member
        "
            [listName; typeName]).
  exists (fmt.Sprintf "t1 %[2]s, f func(%[2]s, %[2]s) %[2]s) %[2]s {
            for _, t := range l {
                t1 = f(t1, t)
            }
            return t1
        }
        "
            [listName; typeName]).
  unfold getReduceFunction.
  rewrite receiver_append. unfold fmt.Sprintf. rewrite <- doPrintf_then_spec.
  vm_compute. reflexivity.
Qed.

Lemma getReduceRightFunction_receiver (listName typeName targetType targetTypeName : string) :
  ∃ comment rest,
    getReduceRightFunction listName typeName targetType targetTypeName =
      comment ++ receiver listName "ReduceRight" ++ rest.
Proof.
  exists (fmt.Sprintf "
        // ReduceRight is a method on %[1]s that takes a function of type (%[2]s, %[2]s) -> %[2]s and returns a %[2]s which is the result of applying the function to all members of the original list starting from the last member
        "
            [listName; typeName]).
  exists (fmt.Sprintf "t1 %[2]s, f func(%[2]s, %[2]s) %[2]s) %[2]s {
            for i := len(l) - 1; i >= 0; i-- {
                t := l[i]
                t1 = f(t, t1)
            }
            return t1
        }
        "
            [listName; typeName]).
  unfold getReduceRightFunction.
  rewrite receiver_append. unfold fmt.Sprintf. rewrite <- doPrintf_then_spec.
  vm_compute. reflexivity.
Qed.

Lemma getAllFunction_receiver (listName typeName targetType targetTypeName : string) :
  ∃ comment rest,
    getAllFunction listName typeName targetType targetTypeName =
      comment ++ receiver listName "All" ++ rest.
Proof.
  exists (fmt.Sprintf "
        // All is a method on %[1]s that returns true if all the members of the list satisfy a function or if the list is empty. 
        "
            [listName; typeName]).
  exists (fmt.Sprintf "f func(%[2]s) bool) bool {
            for _, t := range l {
                if !f(t) {
                    return false
                }
            }
            return true
        }
        "
            [listName; typeName]).
  unfold getAllFunction.
  rewrite receiver_append. unfold fmt.Sprintf. rewrite <- doPrintf_then_spec.
  vm_compute. reflexivity.
Qed.

Lemma getAnyFunction_receiver (listName typeName targetType targetTypeName : string) :
  ∃ comment rest,
    getAnyFunction listName typeName targetType targetTypeName =
      comment ++ receiver listName "Any" ++ rest.
Proof.
  exists (fmt.Sprintf "
        // Any is a method on %[1]s that returns true if at least one member of the list satisfies a function. It returns false if the list is empty. 
        "
            [listName; typeName]).
  exists (fmt.Sprintf "f func(%[2]s) bool) bool {
            for _, t := range l {
                if f(t) {
                    return true
                }
            }
            return false
        }
        "
            [listName; typeName]).
  unfold getAnyFunction.
  rewrite receiver_append. unfold fmt.Sprintf. rewrite <- doPrintf_then_spec.
  vm_compute. reflexivity.
Qed.


(** X22: every entry of the registry is bound to the template of the
    method of its name: the text its [method] returns declares, on the
    list type, a method called by the name of the entry, followed by
    [strings.Title] of the suffix for the two cross-type entries; the other
    entries do not use the target type and the suffix. *)
Theorem registry_names_match_templates (gen : Generator)
    (listName typeName targetType targetTypeName : string) :
  gen ∈ generators →
  (∃ comment rest,
     method gen listName typeName targetType targetTypeName =
       comment
       ++ receiver listName
            (name gen ++ (if needMapToMap gen then strings.Title targetTypeName else ""))
       ++ rest) ∧
  (needMapToMap gen = false →
     method gen listName typeName targetType targetTypeName
       = method gen listName typeName "" "").
Proof.
  unfold generators. intros Hin.
  repeat (apply elem_of_cons in Hin as [->|Hin]);
    try (by apply elem_of_nil in Hin);
    (split;
       [|cbn [needMapToMap method]; intros Hsingle;
         first
           [ discriminate Hsingle
           | cbv beta delta
               [getFilterFunction getPFilterFunction getReduceFunction
                getReduceRightFunction getTakeFunction getTakeWhileFunction
                getDropFunction getDropWhileFunction getEachFunction
                getEachIFunction getAllFunction getAnyFunction];
             reflexivity ]]);
    cbn [method name needMapToMap]; rewrite ?append_nil_r.
  - apply getMapFunction_receiver.
  - apply getPMapFunction_receiver.
  - apply getFilterFunction_receiver.
  - apply getPFilterFunction_receiver.
  - apply getReduceFunction_receiver.
  - apply getReduceRightFunction_receiver.
  - apply getTakeFunction_receiver.
  - apply getTakeWhileFunction_receiver.
  - apply getDropFunction_receiver.
  - apply getDropWhileFunction_receiver.
  - apply getEachFunction_receiver.
  - apply getEachIFunction_receiver.
  - apply getAllFunction_receiver.
  - apply getAnyFunction_receiver.
Qed.

Lemma registry_names_match_templates_witness :
  ∃ comment rest,
    method Map_generator "intList" "int" "string" "S" =
      comment
      ++ receiver "intList"
           (name Map_generator
              ++ (if needMapToMap Map_generator then strings.Title "S" else ""))
      ++ rest.
Proof.
  apply (registry_names_match_templates Map_generator "intList" "int" "string" "S").
  by left.
Defined.


(** X23: an entry of the type specification with an empty alias is taken
    for the source type by the cross-type templates: the method from any
    other type to it gets the bare name of the generator and the source
    list type as its result type, as the method from the source type to
    itself does. *)
Theorem empty_alias_is_taken_for_identity (gen : Generator)
    (typeName listname k : string) :
  gen ∈ generators → needMapToMap gen = true →
  ∃ comment body,
    method gen listname typeName k (targetTypeNameOf typeName k "")
      = comment ++ declaration listname (name gen) typeName k listname ++ body.
Proof.
  intros Hin Hcross.
  assert (targetTypeNameOf typeName k "" = "") as ->
    by (unfold targetTypeNameOf; by destruct (String.eqb k typeName)).
  destruct (cross_generators gen Hin Hcross) as [[-> ->]|[-> ->]].
  - destruct (getMapFunction_text listname typeName k "") as (comment & body & ->).
    exists comment, body. by rewrite append_nil_r.
  - destruct (getPMapFunction_text listname typeName k "") as (comment & body & ->).
    exists comment, body. by rewrite append_nil_r.
Qed.

Lemma empty_alias_is_taken_for_identity_witness :
  ∃ comment body,
    method Map_generator "intList" "int" "string" (targetTypeNameOf "int" "string" "")
      = comment
        ++ declaration "intList" (name Map_generator) "int" "string" "intList" ++ body.
Proof.
  apply (empty_alias_is_taken_for_identity Map_generator "int" "intList" "string").
  - by left.
  - reflexivity.
Defined.
